(** * liamnewmarch.github.io: the GitHub Pages repository list (js/app.js)

    A shallow embedding of [GitHubAPI] (cache-then-fetch retrieval of a
    user's repositories, filtered and sorted) and of the template
    substitution of [GitHubReposComponent], with the properties the
    specification states about them.

    Conventions of the embedding:
    - a JavaScript string is a [string]; its characters are the code units,
      kept to one byte each.  Scanners work on [list ascii];
    - a JavaScript number is a double.  The model has the doubles that are
      integers, written as the integer, and the two infinities; negative
      zero is not told from zero, and a number text with a fraction or an
      exponent is not read;
    - a value read from JSON is a [value]; [undefined], which JSON never
      produces, is [None] of [option value].  The members a value inherits
      from the built-in prototypes are listed where a key chosen by a
      template is read;
    - [sessionStorage] is a finite map from keys to strings: a user name
      is not the name of a member of [Storage], and a write finds room;
    - callbacks are the caller's code: a callback is a function that tells,
      for the argument it receives, whether it returns or throws, and every
      call of one is recorded in the log of the [world];
    - [Date.parse], whose accepted formats depend on the host, is a
      parameter, and so is the way the host's [Array.prototype.sort] reads
      a comparison function that never answers [0]. *)

From Stdlib Require Import ZArith Ascii String List Lia Bool Sorted Permutation.
From stdpp Require Import gmap strings sorting.

Import ListNotations.
Local Open Scope Z_scope.
Set Warnings "-register-all".

(** A step that may throw, followed by what uses its result. *)
Notation "x <-? r ;; k" := (match r with inr x => k | inl e => inl e end)
  (at level 60, r at next level, right associativity).

(** ** JavaScript values *)

Module JS.

Inductive value : Type :=
| JNull
| JBool (b : bool)
| JNum (n : Z)              (* a finite number, an integer *)
| JInf (negative : bool)    (* Infinity and -Infinity *)
| JStr (s : string)
| JArr (items : list value)
| JObj (fields : list (string * value)).

(** Exceptions and events handed to an error callback or left uncaught. *)
Inductive error : Type :=
| SyntaxError            (* JSON.parse on a text that is not JSON *)
| TypeError              (* property read on null, method missing,
                            a value with no string form *)
| Thrown (what : string) (* thrown by a callback of the caller *)
| ProgressEvent.         (* the 'error' event of an XMLHttpRequest *)

(** [obj[key]] on the own fields of an object; [None] is [undefined].
    [JSON.parse] keeps one binding per key, so the first one is the one. *)
Fixpoint lookup_field (key : string) (fields : list (string * value)) : option value :=
  match fields with
  | [] => None
  | (k, v) :: rest => if String.eqb k key then Some v else lookup_field key rest
  end.

(** [obj[key] = v] during object creation: an existing key keeps its
    place and takes the new value, a new key is added at the end. *)
Fixpoint set_field (key : string) (v : value) (fields : list (string * value))
  : list (string * value) :=
  match fields with
  | [] => [(key, v)]
  | (k, w) :: rest =>
      if String.eqb k key then (k, v) :: rest else (k, w) :: set_field key v rest
  end.

(** The read [v.name] for a member name that no built-in prototype
    defines ([has_pages], [name], [updated_at]): a [TypeError] on [null],
    the own field of an object, [undefined] on everything else. *)
Definition member (v : value) (name : string) : error + option value :=
  match v with
  | JNull => inl TypeError
  | JObj fields => inr (lookup_field name fields)
  | _ => inr None
  end.

(** ToBoolean. *)
Definition to_boolean (v : option value) : bool :=
  match v with
  | None => false
  | Some JNull => false
  | Some (JBool b) => b
  | Some (JNum n) => negb (n =? 0)
  | Some (JInf _) => true
  | Some (JStr s) => negb (String.eqb s EmptyString)
  | Some (JArr _) => true
  | Some (JObj _) => true
  end.

(** *** Numbers *)

(** The double nearest to an integer, ties to the even significand:
    the integer itself below [2^53], an integer with 53 significant bits
    above, [None] (an infinity) from [2^1024] on. *)
Definition to_double (n : Z) : option Z :=
  let a := Z.abs n in
  if a <? 2 ^ 53 then Some n
  else
    let e := Z.log2 a - 52 in
    let q := Z.shiftr a e in
    let r := a - Z.shiftl q e in
    let half := Z.shiftl 1 (e - 1) in
    let q' := if (half <? r) || ((r =? half) && Z.odd q) then q + 1 else q in
    let m := Z.shiftl q' e in
    if m <? 2 ^ 1024 then Some (Z.sgn n * m) else None.

(** The number an integer text denotes. *)
Definition number_of (n : Z) : value :=
  match to_double n with
  | Some d => JNum d
  | None => JInf (n <? 0)
  end.

(** Decimal digits of a natural number, most significant first.  The
    recursion follows the binary digits of [fuel], a number at least as
    large as [n]: dividing by ten more than halves. *)
Definition digit_char (d : N) : ascii := ascii_of_N (48 + d).

Fixpoint digits_go (fuel : positive) (n : N) (acc : list ascii) : list ascii :=
  let acc' := digit_char (n mod 10) :: acc in
  if (n / 10 =? 0)%N then acc'
  else match fuel with
       | xH => acc'
       | xO p | xI p => digits_go p (n / 10)%N acc'
       end.

Definition digits (p : positive) : list ascii := digits_go p (Npos p) [].

(** An integer in decimal digits. *)
Definition integer_chars (n : Z) : list ascii :=
  match n with
  | Z0 => ["0"%char]
  | Zpos p => digits p
  | Zneg p => "-"%char :: digits p
  end.

(** [text] reads as the double [a]. *)
Definition reads_as (text a : Z) : bool :=
  match to_double text with
  | Some d => d =? a
  | None => false
  end.

(** The decimal with the fewest significant digits that reads as the
    positive double [a] of [len] digits, as an integer: with [k] digits
    from one on, the multiples of [10^(len-k)] on both sides of [a] are
    tried; of two that read as [a] the nearer is taken, the one with the
    even last digit when they are as near.  With [len] digits [a] itself
    is found. *)
Fixpoint shortest_go (fuel : nat) (k len a : Z) : Z :=
  match fuel with
  | O => a
  | S fuel' =>
      let unit := 10 ^ (len - k) in
      let low := a / unit * unit in
      let high := low + unit in
      if reads_as low a && reads_as high a then
        if a - low <? high - a then low
        else if high - a <? a - low then high
        else if Z.even (a / unit) then low else high
      else if reads_as low a then low
      else if reads_as high a then high
      else shortest_go fuel' (k + 1) len a
  end.

Definition shortest (a : positive) : Z :=
  let len := Z.of_nat (length (digits a)) in
  shortest_go (length (digits a)) 1 len (Zpos a).

Fixpoint drop_zeros_right (s : list ascii) : list ascii :=
  match s with
  | [] => []
  | c :: rest =>
      match drop_zeros_right rest with
      | [] => if Ascii.eqb c "0"%char then [] else [c]
      | kept => c :: kept
      end
  end.

(** Exponential notation, for a number from [10^21] on: the first digit,
    the other significant digits behind a point, the exponent. *)
Definition exponential (v : positive) : list ascii :=
  match digits v with
  | [] => []
  | d :: rest =>
      d :: match drop_zeros_right rest with
           | [] => []
           | more => "."%char :: more
           end
        ++ "e"%char :: "+"%char :: integer_chars (Z.of_nat (length rest))
  end.

(** Number to string, for a number without sign: the digits of an
    integer below [2^53]; above, the shortest decimal that reads as the
    double, written out below [10^21] and in exponential notation from
    there on. *)
Definition unsigned_chars (a : positive) : list ascii :=
  if Zpos a <? 2 ^ 53 then digits a
  else match to_double (Zpos a) with
       | Some (Zpos d) =>
           match shortest d with
           | Zpos v => if Zpos v <? 10 ^ 21 then digits v else exponential v
           | _ => digits d
           end
       | _ => ["I"; "n"; "f"; "i"; "n"; "i"; "t"; "y"]%char
       end.

Definition number_to_chars (n : Z) : list ascii :=
  match n with
  | Z0 => ["0"%char]
  | Zpos p => unsigned_chars p
  | Zneg p => "-"%char :: unsigned_chars p
  end.

Definition chars := list_ascii_of_string.
Definition str := string_of_list_ascii.

(** Pieces joined by commas. *)
Section Joined.
Context {A : Type} (piece : A -> list ascii).

Fixpoint join_commas (l : list A) : list ascii :=
  match l with
  | [] => []
  | x :: rest =>
      match rest with
      | [] => piece x
      | _ :: _ => piece x ++ ","%char :: join_commas rest
      end
  end.
End Joined.

(** The same when making a piece may throw: the first piece that throws
    ends the joining. *)
Section JoinedThrown.
Context {A : Type} (piece : A -> error + list ascii).

Fixpoint join_thrown (l : list A) : error + list ascii :=
  match l with
  | [] => inr []
  | x :: rest =>
      first <-? piece x ;;
      match rest with
      | [] => inr first
      | _ :: _ => more <-? join_thrown rest ;; inr (first ++ ","%char :: more)
      end
  end.
End JoinedThrown.

(** ToString, through ToPrimitive.  An array is its elements joined by
    commas, a [null] among them printing as nothing.  A plain object is
    "[object Object]" by the [toString] it inherits; an object with a field
    [toString] of its own, which JSON cannot make a function, has no
    method left that gives a primitive: a [TypeError]. *)
Fixpoint to_chars (v : value) : error + list ascii :=
  match v with
  | JNull => inr (chars "null")
  | JBool true => inr (chars "true")
  | JBool false => inr (chars "false")
  | JNum n => inr (number_to_chars n)
  | JInf negative => inr (chars (if negative then "-Infinity" else "Infinity"))
  | JStr s => inr (chars s)
  | JArr items =>
      join_thrown (fun x => match x with JNull => inr [] | _ => to_chars x end) items
  | JObj fields =>
      match lookup_field "toString" fields with
      | Some _ => inl TypeError
      | None => inr (chars "[object Object]")
      end
  end.

Definition to_string (v : value) : error + string :=
  text <-? to_chars v ;; inr (str text).

End JS.
Export JS.

(** ** JSON.stringify and JSON.parse *)

Module JSON.

Definition dquote : ascii := "034"%char.
Definition backslash : ascii := "\"%char.

Definition hex_char (d : N) : ascii :=
  if (d <? 10)%N then ascii_of_N (48 + d) else ascii_of_N (87 + d).

(** The escape of one character inside a quoted string: the two-character
    escapes of the quote, the backslash and the five named controls,
    [\u00XX] for the other controls, the character itself otherwise. *)
Definition escape_char (c : ascii) : list ascii :=
  let n := N_of_ascii c in
  if Ascii.eqb c dquote then [backslash; dquote]
  else if Ascii.eqb c backslash then [backslash; backslash]
  else if (n =? 8)%N then [backslash; "b"%char]
  else if (n =? 9)%N then [backslash; "t"%char]
  else if (n =? 10)%N then [backslash; "n"%char]
  else if (n =? 12)%N then [backslash; "f"%char]
  else if (n =? 13)%N then [backslash; "r"%char]
  else if (n <? 32)%N then
    [backslash; "u"%char; "0"%char; "0"%char; hex_char (n / 16); hex_char (n mod 16)]
  else [c].

Definition quote (s : list ascii) : list ascii :=
  dquote :: flat_map escape_char s ++ [dquote].

(** [JSON.stringify] without indentation.  A number that is not finite
    is written as [null]. *)
Fixpoint stringify (v : value) : list ascii :=
  match v with
  | JNull => chars "null"
  | JBool true => chars "true"
  | JBool false => chars "false"
  | JNum n =>
      match to_double n with
      | Some _ => number_to_chars n
      | None => chars "null"
      end
  | JInf _ => chars "null"
  | JStr s => quote (chars s)
  | JArr items => "["%char :: join_commas stringify items ++ ["]"%char]
  | JObj fields =>
      "{"%char ::
      join_commas
        (fun kv => let '(k, x) := kv in quote (chars k) ++ ":"%char :: stringify x)
        fields ++ ["}"%char]
  end.

Definition JSON_stringify (v : value) : string := str (stringify v).

(** The scanner of [JSON.parse]. *)
Definition is_ws (c : ascii) : bool :=
  let n := N_of_ascii c in
  (n =? 32)%N || (n =? 9)%N || (n =? 10)%N || (n =? 13)%N.

Fixpoint skip_ws (s : list ascii) : list ascii :=
  match s with
  | c :: r => if is_ws c then skip_ws r else s
  | [] => []
  end.

Fixpoint strip_prefix (p s : list ascii) : option (list ascii) :=
  match p, s with
  | [], _ => Some s
  | a :: p', c :: s' => if Ascii.eqb a c then strip_prefix p' s' else None
  | _ :: _, [] => None
  end.

Definition is_digit (c : ascii) : bool :=
  let n := N_of_ascii c in (48 <=? n)%N && (n <=? 57)%N.

Definition digit_val (c : ascii) : N := (N_of_ascii c - 48)%N.

Fixpoint parse_digits (a : N) (s : list ascii) : N * list ascii :=
  match s with
  | c :: r => if is_digit c then parse_digits (10 * a + digit_val c)%N r else (a, s)
  | [] => (a, [])
  end.

(** The integer part of a number: a lone zero, or digits that start with
    a digit from 1 to 9. *)
Definition parse_int (s : list ascii) : option (N * list ascii) :=
  match s with
  | c :: r =>
      if Ascii.eqb c "0"%char then Some (0%N, r)
      else if is_digit c then Some (parse_digits 0 s)
      else None
  | [] => None
  end.

(** A number: the double nearest to what the digits denote.  A fraction
    or an exponent is left in the rest, where the caller rejects it. *)
Definition parse_number (s : list ascii) : option (value * list ascii) :=
  match s with
  | c :: r =>
      if Ascii.eqb c "-"%char
      then match parse_int r with
           | Some (n, r') => Some (number_of (- Z.of_N n), r')
           | None => None
           end
      else match parse_int s with
           | Some (n, r') => Some (number_of (Z.of_N n), r')
           | None => None
           end
  | [] => None
  end.

Definition hex_val (c : ascii) : option N :=
  let n := N_of_ascii c in
  if is_digit c then Some (n - 48)%N
  else if (97 <=? n)%N && (n <=? 102)%N then Some (n - 87)%N
  else if (65 <=? n)%N && (n <=? 70)%N then Some (n - 55)%N
  else None.

Definition hex4 (a b c d : ascii) : option N :=
  match hex_val a, hex_val b, hex_val c, hex_val d with
  | Some x, Some y, Some z, Some w => Some (((x * 16 + y) * 16 + z) * 16 + w)%N
  | _, _, _, _ => None
  end.

Definition unescape (e : ascii) : option ascii :=
  if Ascii.eqb e dquote then Some dquote
  else if Ascii.eqb e backslash then Some backslash
  else if Ascii.eqb e "/"%char then Some "/"%char
  else if Ascii.eqb e "b"%char then Some (ascii_of_N 8)
  else if Ascii.eqb e "t"%char then Some (ascii_of_N 9)
  else if Ascii.eqb e "n"%char then Some (ascii_of_N 10)
  else if Ascii.eqb e "f"%char then Some (ascii_of_N 12)
  else if Ascii.eqb e "r"%char then Some (ascii_of_N 13)
  else None.

Definition cons_to {A : Type} (c : A) (r : option (list A * list ascii))
  : option (list A * list ascii) :=
  match r with
  | Some (l, rest) => Some (c :: l, rest)
  | None => None
  end.

(** The characters of a string after its opening quote, up to and
    without the closing one.  A [\uXXXX] escape stands for one character
    when its code fits the one-byte characters of the model. *)
Fixpoint parse_string (s : list ascii) : option (list ascii * list ascii) :=
  match s with
  | [] => None
  | c :: r =>
      if Ascii.eqb c dquote then Some ([], r)
      else if Ascii.eqb c backslash then
        match r with
        | [] => None
        | e :: r' =>
            if Ascii.eqb e "u"%char then
              match r' with
              | h1 :: h2 :: h3 :: h4 :: r'' =>
                  match hex4 h1 h2 h3 h4 with
                  | Some code =>
                      if (code <? 256)%N
                      then cons_to (ascii_of_N code) (parse_string r'')
                      else None
                  | None => None
                  end
              | _ => None
              end
            else match unescape e with
                 | Some ch => cons_to ch (parse_string r')
                 | None => None
                 end
        end
      else if (N_of_ascii c <? 32)%N then None
      else cons_to c (parse_string r)
  end.

(** The object a list of members creates, member by member. *)
Definition object_of (members : list (string * value)) : list (string * value) :=
  fold_left (fun fields kv => set_field (fst kv) (snd kv) fields) members [].

(** Recursive descent.  Each call passes less fuel on; [JSON_parse]
    starts with more than any chain of calls on its text needs. *)
Fixpoint parse_value (fuel : nat) (s : list ascii) {struct fuel}
  : option (value * list ascii) :=
  match fuel with
  | O => None
  | S fuel' =>
      match skip_ws s with
      | [] => None
      | c :: r =>
          if Ascii.eqb c "["%char then
            match skip_ws r with
            | [] => None
            | c' :: r' =>
                if Ascii.eqb c' "]"%char then Some (JArr [], r')
                else match parse_elements fuel' r with
                     | Some (items, rest) => Some (JArr items, rest)
                     | None => None
                     end
            end
          else if Ascii.eqb c "{"%char then
            match skip_ws r with
            | [] => None
            | c' :: r' =>
                if Ascii.eqb c' "}"%char then Some (JObj [], r')
                else match parse_members fuel' r with
                     | Some (members, rest) => Some (JObj (object_of members), rest)
                     | None => None
                     end
            end
          else if Ascii.eqb c dquote then
            match parse_string r with
            | Some (s', rest) => Some (JStr (str s'), rest)
            | None => None
            end
          else if Ascii.eqb c "n"%char then
            match strip_prefix (chars "ull") r with
            | Some rest => Some (JNull, rest)
            | None => None
            end
          else if Ascii.eqb c "t"%char then
            match strip_prefix (chars "rue") r with
            | Some rest => Some (JBool true, rest)
            | None => None
            end
          else if Ascii.eqb c "f"%char then
            match strip_prefix (chars "alse") r with
            | Some rest => Some (JBool false, rest)
            | None => None
            end
          else parse_number (c :: r)
      end
  end
with parse_elements (fuel : nat) (s : list ascii) {struct fuel}
  : option (list value * list ascii) :=
  match fuel with
  | O => None
  | S fuel' =>
      match parse_value fuel' s with
      | None => None
      | Some (v, r) =>
          match skip_ws r with
          | [] => None
          | c :: r' =>
              if Ascii.eqb c ","%char then cons_to v (parse_elements fuel' r')
              else if Ascii.eqb c "]"%char then Some ([v], r')
              else None
          end
      end
  end
with parse_members (fuel : nat) (s : list ascii) {struct fuel}
  : option (list (string * value) * list ascii) :=
  match fuel with
  | O => None
  | S fuel' =>
      match skip_ws s with
      | [] => None
      | q :: r0 =>
          if Ascii.eqb q dquote then
            match parse_string r0 with
            | None => None
            | Some (k, r1) =>
                match skip_ws r1 with
                | [] => None
                | c1 :: r2 =>
                    if Ascii.eqb c1 ":"%char then
                      match parse_value fuel' r2 with
                      | None => None
                      | Some (v, r3) =>
                          match skip_ws r3 with
                          | [] => None
                          | c :: r4 =>
                              if Ascii.eqb c ","%char
                              then cons_to (str k, v) (parse_members fuel' r4)
                              else if Ascii.eqb c "}"%char then Some ([(str k, v)], r4)
                              else None
                          end
                      end
                    else None
                end
            end
          else None
      end
  end.

(** [JSON.parse]: one value, then nothing but white space.  [None] is
    the [SyntaxError]. *)
Definition parse_chars (s : list ascii) : option value :=
  match parse_value (2 * length s + 2) s with
  | Some (v, rest) => match skip_ws rest with [] => Some v | _ :: _ => None end
  | None => None
  end.

Definition JSON_parse (s : string) : option value := parse_chars (chars s).

End JSON.
Export JSON.

(** ** String.prototype.replace with the template pattern *)

Module Template.

(** [\s] and [\w] on one-byte characters. *)
Definition is_space (c : ascii) : bool :=
  let n := N_of_ascii c in
  ((9 <=? n)%N && (n <=? 13)%N) || (n =? 32)%N || (n =? 160)%N.

Definition is_word (c : ascii) : bool :=
  let n := N_of_ascii c in
  ((48 <=? n)%N && (n <=? 57)%N) || ((65 <=? n)%N && (n <=? 90)%N)
  || ((97 <=? n)%N && (n <=? 122)%N) || (n =? 95)%N.

Fixpoint skip_space (s : list ascii) : list ascii :=
  match s with
  | c :: r => if is_space c then skip_space r else s
  | [] => []
  end.

Fixpoint span_word (s : list ascii) : list ascii * list ascii :=
  match s with
  | c :: r =>
      if is_word c then let '(w, rest) := span_word r in (c :: w, rest) else ([], s)
  | [] => ([], [])
  end.

(** A match of [/\{\{\s*(\w+)\s*\}\}/] at the head of [s]: the captured
    key and what follows the match.  White space and word characters
    exclude each other and the braces, so the greedy match is the only
    one. *)
Definition templateRegExp (s : list ascii) : option (list ascii * list ascii) :=
  match s with
  | c1 :: c2 :: r =>
      if Ascii.eqb c1 "{"%char && Ascii.eqb c2 "{"%char then
        let '(key, r2) := span_word (skip_space r) in
        match key with
        | [] => None
        | _ :: _ =>
            match skip_space r2 with
            | d1 :: d2 :: r3 =>
                if Ascii.eqb d1 "}"%char && Ascii.eqb d2 "}"%char
                then Some (key, r3) else None
            | _ => None
            end
        end
      else None
  | _ => None
  end.

(** [s.replace(re, fn)] for the global pattern: from left to right, a
    match is replaced by the string form of what [fn] returns for its key
    and the scan goes on behind it; a character where nothing matches is
    copied.  [fn] stands for the function and the conversion of its
    result, which may throw: the first match it throws on ends the
    replacement. *)
Fixpoint replace_go (fuel : nat) (fn : list ascii -> error + list ascii)
    (s : list ascii) : error + list ascii :=
  match fuel with
  | O => inr s
  | S fuel' =>
      match templateRegExp s with
      | Some (key, rest) =>
          text <-? fn key ;;
          more <-? replace_go fuel' fn rest ;;
          inr (text ++ more)
      | None =>
          match s with
          | [] => inr []
          | c :: r => more <-? replace_go fuel' fn r ;; inr (c :: more)
          end
      end
  end.

Definition replace (fn : list ascii -> error + list ascii) (s : list ascii)
  : error + list ascii :=
  replace_go (length s) fn s.

End Template.
Export Template.

(** ** The world the program runs in *)

Module Host.

Inductive event : Type :=
| SuccessCallback (repos : value)       (* successCallback(repos) *)
| ErrorCallback (e : error)             (* errorCallback(e) *)
| XhrSend (path : string)               (* request.send() of a GET *)
| StorageSet (key : string) (json : string).  (* sessionStorage[key] = json *)

Record world : Type := {
  sessionStorage : gmap string string;
  log : list event
}.

(** The world after more events, the storage as it was. *)
Definition logged (w : world) (evs : list event) : world :=
  {| sessionStorage := sessionStorage w; log := log w ++ evs |}.

(** The storage writes among some events, in order. *)
Fixpoint writes (evs : list event) : list (string * string) :=
  match evs with
  | [] => []
  | StorageSet key json :: rest => (key, json) :: writes rest
  | _ :: rest => writes rest
  end.

(** Every delivery to the success callback comes after a storage write. *)
Definition stored_before_delivered (evs : list event) : Prop :=
  forall before repos after,
    evs = before ++ SuccessCallback repos :: after -> writes before <> [].

(** Computations that read and write the world and may throw. *)
Definition M (A : Type) : Type := world -> world * (error + A).

Definition ret {A : Type} (a : A) : M A := fun w => (w, inr a).

Definition throw {A : Type} (e : error) : M A := fun w => (w, inl e).

Definition bind {A B : Type} (m : M A) (k : A -> M B) : M B :=
  fun w =>
    match m w with
    | (w', inr a) => k a w'
    | (w', inl e) => (w', inl e)
    end.

(** [try { body } catch (error) { handler }]: what the body did to the
    world before it threw stays done. *)
Definition try_catch {A : Type} (body : M A) (handler : error -> M A) : M A :=
  fun w =>
    match body w with
    | (w', inr a) => (w', inr a)
    | (w', inl e) => handler e w'
    end.

Definition emit (ev : event) : M unit :=
  fun w => ({| sessionStorage := sessionStorage w; log := log w ++ [ev] |}, inr tt).

Definition storage_get (key : string) : M (option string) :=
  fun w => (w, inr (sessionStorage w !! key)).

Definition storage_set (key json : string) : M unit :=
  fun w =>
    ({| sessionStorage := <[key := json]> (sessionStorage w);
        log := log w ++ [StorageSet key json] |}, inr tt).

Definition lift {A : Type} (r : error + A) : M A :=
  match r with
  | inr a => ret a
  | inl e => throw e
  end.

(** A callback of the caller: [None] when it returns, [Some e] when it
    throws [e]. *)
Definition callback (A : Type) : Type := A -> option error.

Definition finish (r : option error) : M unit :=
  match r with
  | None => ret tt
  | Some e => throw e
  end.

Definition call_success (successCallback : callback value) (repos : value) : M unit :=
  bind (emit (SuccessCallback repos)) (fun _ => finish (successCallback repos)).

Definition call_error (errorCallback : callback error) (e : error) : M unit :=
  bind (emit (ErrorCallback e)) (fun _ => finish (errorCallback e)).

(** [JSON.parse] of what a storage read or a response gave: [undefined]
    is converted to the text "undefined", which is not JSON. *)
Definition JSON_parse_js (text : option string) : M value :=
  match JSON_parse (match text with Some s => s | None => "undefined"%string end) with
  | Some v => ret v
  | None => throw SyntaxError
  end.

(** What an XMLHttpRequest answers its listeners with. *)
Inductive xhr_event : Type :=
| XhrLoad (status : Z) (response : string)   (* 'load' *)
| XhrError.                                  (* 'error' *)

(** A request that was sent, with the listeners added to it. *)
Record request : Type := {
  req_path : string;
  on_load : Z -> string -> M unit;
  on_error : error -> M unit
}.

Definition dispatch (req : request) (ev : xhr_event) : M unit :=
  match ev with
  | XhrLoad status response => on_load req status response
  | XhrError => on_error req ProgressEvent
  end.

End Host.
Export Host.

Notation "x <- m ;; k" := (bind m (fun x => k))
  (at level 60, m at next level, right associativity).
Notation "m ;;; k" := (bind m (fun _ => k))
  (at level 60, right associativity).
(** ** Array.prototype.sort *)

(** The sort of the host is modelled where the comparison function
    orders the elements it meets, as the one of [filterWithPages] does on
    valid dates: there a sort puts them in that order, whatever its
    algorithm, and what is left to it is the order of elements the function
    does not tell apart.  The function of [filterWithPages] never answers
    [0], so that two such elements are told to stand each behind the other;
    a sort that moves an element forward on a negative answer keeps them
    as they came ([LaterIsLess], the reading of V8), one that moves it
    forward when the element before it is called greater turns them round
    ([EarlierIsGreater]).  Where the function orders nothing (an invalid
    date among the elements) the order is the host's own. *)
Inductive sort_reading : Type :=
| LaterIsLess       (* later moves forward when comparefn(later, earlier) < 0 *)
| EarlierIsGreater. (* later moves forward when comparefn(earlier, later) > 0 *)

Section Sort.
Context {A : Type} (reading : sort_reading) (comparefn : A -> A -> error + Z).

Definition moves_before (later earlier : A) : error + bool :=
  match reading with
  | LaterIsLess => c <-? comparefn later earlier ;; inr (c <? 0)
  | EarlierIsGreater => c <-? comparefn earlier later ;; inr (0 <? c)
  end.

(** [placed] is the part already in order, last element first: [x] moves
    forward past every element it has to stand before.  An exception of
    the comparison function ends the sort. *)
Fixpoint insert_back (x : A) (placed : list A) : error + list A :=
  match placed with
  | [] => inr [x]
  | y :: ys =>
      forward <-? moves_before x y ;;
      if forward then more <-? insert_back x ys ;; inr (y :: more)
      else inr (x :: placed)
  end.

Fixpoint place_all (l placed : list A) : error + list A :=
  match l with
  | [] => inr placed
  | x :: rest => placed' <-? insert_back x placed ;; place_all rest placed'
  end.

Definition sort (l : list A) : error + list A :=
  placed <-? place_all l [] ;; inr (rev placed).
End Sort.

(** ** GitHubAPI *)

Section GitHubAPI.

(** [Date.parse]: the time value of a date text, [None] for [NaN]. *)
Variable Date_parse : string -> option Z.
Variable reading : sort_reading.

Definition baseUrl : string := "https://api.github.com".

Definition exclude : list string :=
  ["liamnewmarch.github.io"; "janineandliam.co.uk"]%string.

(** [array.includes(v)] on an array of strings. *)
Definition includes (array : list string) (v : option value) : bool :=
  match v with
  | Some (JStr s) => existsb (String.eqb s) array
  | _ => false
  end.

Definition time_clip (t : Z) : option Z :=
  if Z.abs t <=? 8640000000000000 then Some t else None.

(** The time value of [new Date(v)]; [None] is the invalid date.  An
    array or an object is converted to a string first, which may throw. *)
Definition new_Date (v : option value) : error + option Z :=
  match v with
  | None => inr None
  | Some JNull => inr (Some 0)
  | Some (JBool b) => inr (Some (if b then 1 else 0))
  | Some (JNum n) => inr (time_clip n)
  | Some (JInf _) => inr None
  | Some (JStr s) => inr (Date_parse s)
  | Some w => text <-? to_string w ;; inr (Date_parse text)
  end.

(** [a > b] on two dates: on their time values, false when one is [NaN]. *)
Definition date_gt (a b : option Z) : bool :=
  match a, b with
  | Some x, Some y => y <? x
  | _, _ => false
  end.

(** [repo.updated_at] in the comparison function, which meets objects
    only: nothing else passes the filter. *)
Definition updated_at (repo : value) : option value :=
  match repo with
  | JObj fields => lookup_field "updated_at" fields
  | _ => None
  end.

(** The comparison function: the two dates are made, the first one
    first, and compared. *)
Definition comparefn (a b : value) : error + Z :=
  date_a <-? new_Date (updated_at a) ;;
  date_b <-? new_Date (updated_at b) ;;
  inr (if date_gt date_a date_b then -1 else 1).

(** The filter callback: [repo.has_pages && !exclude.includes(repo.name)],
    read as a condition. *)
Definition keeps (repo : value) : error + bool :=
  has_pages <-? member repo "has_pages" ;;
  if to_boolean has_pages
  then name <-? member repo "name" ;; inr (negb (includes exclude name))
  else inr false.

Fixpoint filter_array (items : list value) : error + list value :=
  match items with
  | [] => inr []
  | repo :: rest =>
      keep <-? keeps repo ;;
      kept <-? filter_array rest ;;
      inr (if keep then repo :: kept else kept)
  end.

(** [filterWithPages]: a [TypeError] when [repos] has no [filter] method
    or an element is [null], and the exception of the comparison function
    when the sort meets one. *)
Definition filterWithPages (repos : value) : error + list value :=
  match repos with
  | JArr items =>
      kept <-? filter_array items ;;
      sort reading comparefn kept
  | _ => inl TypeError
  end.

Section Methods.
Variable username : string.
Variables (successCallback : callback value) (errorCallback : callback error).

(** The 'load' listener of [fetchUserRepos]. *)
Definition fetch_loaded (status : Z) (response : string) : M unit :=
  if status =? 200 then
    try_catch
      (data <- JSON_parse_js (Some response) ;;
       filtered <- lift (filterWithPages data) ;;
       call_success successCallback (JArr filtered) ;;;
       storage_set username (JSON_stringify (JArr filtered)))
      (fun error => call_error errorCallback error)
  else ret tt.

Definition repos_path : string :=
  (baseUrl ++ "/users/" ++ username ++ "/repos")%string.

(** The request of [fetchUserRepos] with its two listeners. *)
Definition listening : request :=
  {| req_path := repos_path;
     on_load := fetch_loaded;
     on_error := call_error errorCallback |}.

Definition fetchUserRepos : M request :=
  emit (XhrSend (req_path listening)) ;;; ret listening.

(** [getRepos]; the result is the request left waiting for its answer,
    if one was sent. *)
Definition getRepos : M (option request) :=
  try_catch
    (json <- storage_get username ;;
     repos <- JSON_parse_js json ;;
     call_success successCallback repos ;;;
     ret None)
    (fun error => req <- fetchUserRepos ;; ret (Some req)).

(** [getRepos], then the answer [net] to the request if one was sent. *)
Definition getRepos_then (net : xhr_event) : M unit :=
  pending <- getRepos ;;
  match pending with
  | Some req => dispatch req net
  | None => ret tt
  end.

(** [fetchUserRepos], then the answer [net] to its request. *)
Definition fetchUserRepos_then (net : xhr_event) : M unit :=
  req <- fetchUserRepos ;; dispatch req net.
End Methods.

End GitHubAPI.

(** ** GitHubReposComponent *)

Module Component.

(** The anchor [_render] creates and appends. *)
Record anchor : Type := {
  className : string;
  href : string;
  innerHTML : string
}.

(** A value added to a string: converted to a string, which may throw. *)
Definition concat_value (v : option value) : error + string :=
  match v with
  | Some w => to_string w
  | None => inr "undefined"%string
  end.

(** The text of a built-in function, as V8 prints it. *)
Definition native_code (name : string) : list ascii :=
  chars "function " ++ chars name ++ chars "() { [native code] }".

(** The functions of [Object.prototype], the constructor apart. *)
Definition Object_prototype : list string :=
  ["__defineGetter__"; "__defineSetter__"; "hasOwnProperty"; "__lookupGetter__";
   "__lookupSetter__"; "isPrototypeOf"; "propertyIsEnumerable"; "toString";
   "valueOf"; "toLocaleString"]%string.

(** The string form of what a record inherits under [key]: the text of
    a function, or that of [Object.prototype] itself for [__proto__];
    [None] when it inherits nothing of that name. *)
Definition inherited (key : string) : option (list ascii) :=
  if String.eqb key "constructor" then Some (native_code "Object")
  else if String.eqb key "__proto__" then Some (chars "[object Object]")
  else if existsb (String.eqb key) Object_prototype then Some (native_code key)
  else None.

(** The replacer [function(_, key) { return repo[key] || ''; }], its
    result converted to a string.  [repo[key]] is the field of the record
    or, when the record has none of that name, what it inherits from
    [Object.prototype], which is truthy. *)
Definition replacer (repo : list (string * value)) (key : list ascii)
  : error + list ascii :=
  match lookup_field (str key) repo with
  | Some v => if to_boolean (Some v) then to_chars v else inr []
  | None =>
      match inherited (str key) with
      | Some text => inr text
      | None => inr []
      end
  end.

(** The markup of one repository: the template with its variables
    replaced. *)
Definition render (template : string) (repo : list (string * value))
  : error + string :=
  markup <-? replace (replacer repo) (chars template) ;; inr (str markup).

(** [_render]: the anchor it appends, or the exception of one of the two
    conversions to a string, thrown before anything is appended. *)
Definition _render (template : string) (repo : list (string * value))
  : error + anchor :=
  name <-? concat_value (lookup_field "name" repo) ;;
  markup <-? render template repo ;;
  inr {| className := "repo-list-item";
         href := ("https://liamnewmarch.github.io/" ++ name ++ "/")%string;
         innerHTML := markup |}.

End Component.
Export Component.

(** ** Texts for examples *)

(** A text with every apostrophe turned into a double quote. *)
Definition js (s : string) : string :=
  str (map (fun c => if Ascii.eqb c "'"%char then dquote else c) (chars s)).

(** [Date.parse] on the date-time format of the GitHub API,
    [YYYY-MM-DDTHH:MM:SSZ], and on the date alone; [None] on other texts,
    which is enough for examples. *)
Definition two_digits (a b : ascii) : option Z :=
  if is_digit a && is_digit b
  then Some (Z.of_N (10 * digit_val a + digit_val b)) else None.

Definition days_from_civil (y m d : Z) : Z :=
  let y' := if m <=? 2 then y - 1 else y in
  let era := y' / 400 in
  let yoe := y' - era * 400 in
  let doy := (153 * (if 2 <? m then m - 3 else m + 9) + 2) / 5 + d - 1 in
  let doe := yoe * 365 + yoe / 4 - yoe / 100 + doy in
  era * 146097 + doe - 719468.

Definition iso_date (s : list ascii) : option (Z * list ascii) :=
  match s with
  | y1 :: y2 :: y3 :: y4 :: d1 :: m1 :: m2 :: d2 :: a1 :: a2 :: rest =>
      match two_digits y1 y2, two_digits y3 y4, two_digits m1 m2, two_digits a1 a2 with
      | Some yh, Some yl, Some m, Some d =>
          if Ascii.eqb d1 "-"%char && Ascii.eqb d2 "-"%char
             && (1 <=? m) && (m <=? 12) && (1 <=? d) && (d <=? 31)
          then Some (days_from_civil (yh * 100 + yl) m d * 86400000, rest)
          else None
      | _, _, _, _ => None
      end
  | _ => None
  end.

Definition iso_time (s : list ascii) : option Z :=
  match s with
  | [t; h1; h2; c1; m1; m2; c2; s1; s2; z] =>
      match two_digits h1 h2, two_digits m1 m2, two_digits s1 s2 with
      | Some h, Some m, Some sec =>
          if Ascii.eqb t "T"%char && Ascii.eqb c1 ":"%char && Ascii.eqb c2 ":"%char
             && Ascii.eqb z "Z"%char && (h <=? 23) && (m <=? 59) && (sec <=? 59)
          then Some (((h * 60 + m) * 60 + sec) * 1000)
          else None
      | _, _, _ => None
      end
  | _ => None
  end.

Definition iso_parse (s : string) : option Z :=
  match iso_date (chars s) with
  | Some (day, []) => Some day
  | Some (day, rest) =>
      match iso_time rest with
      | Some ms => Some (day + ms)
      | None => None
      end
  | None => None
  end.

(** ** Inputs for examples *)

Definition example_user : string := "liamnewmarch".

(** A callback that returns, and one that throws. *)
Definition returns {A : Type} : callback A := fun _ => None.
Definition throwing {A : Type} (e : error) : callback A := fun _ => Some e.

(** The three repositories of the end-to-end example of the specification. *)
Definition repo_x : list (string * value) :=
  [("name", JStr "x"); ("has_pages", JBool true);
   ("updated_at", JStr "2020-01-01")]%string.
Definition repo_y : list (string * value) :=
  [("name", JStr "y"); ("has_pages", JBool false);
   ("updated_at", JStr "2021-01-01")]%string.
Definition repo_site : list (string * value) :=
  [("name", JStr "liamnewmarch.github.io"); ("has_pages", JBool true);
   ("updated_at", JStr "2022-01-01")]%string.

Definition example_records : list (list (string * value)) :=
  [repo_x; repo_y; repo_site].

Definition example_response : string :=
  js ("[{'name':'x','has_pages':true,'updated_at':'2020-01-01'},"
      ++ "{'name':'y','has_pages':false,'updated_at':'2021-01-01'},"
      ++ "{'name':'liamnewmarch.github.io','has_pages':true,"
      ++ "'updated_at':'2022-01-01'}]").

(** A world with nothing cached, and one with a text cached for the user. *)
Definition fresh : world := {| sessionStorage := ∅; log := [] |}.
Definition cached (text : string) : world :=
  {| sessionStorage := <[example_user := text]> ∅; log := [] |}.

(** ** What the specification speaks of *)

(** A value is falsy: [undefined], [null], [false], zero or the empty
    string. *)
Definition falsy (v : option value) : Prop :=
  v = None \/ v = Some JNull \/ v = Some (JBool false)
  \/ v = Some (JNum 0) \/ v = Some (JStr "").


(** The name of a record is in the exclusion set. *)
Definition name_excluded (fields : list (string * value)) : Prop :=
  exists s, lookup_field "name" fields = Some (JStr s) /\ In s exclude.

(** The record is one the filter is to keep. *)
Definition wanted (fields : list (string * value)) : Prop :=
  ~ falsy (lookup_field "has_pages" fields) /\ ~ name_excluded fields.

(** The same on any element of the list: it is such a record. *)
Definition wanted_value (repo : value) : Prop :=
  exists fields, repo = JObj fields /\ wanted fields.

(** A value with no string form: an object with a field [toString], or
    an array that holds such a value. *)
Fixpoint unprintable (v : value) : bool :=
  match v with
  | JObj fields =>
      match lookup_field "toString" fields with
      | Some _ => true
      | None => false
      end
  | JArr items => existsb unprintable items
  | _ => false
  end.

(** The [updated_at] of a record has no string form, so that no date can
    be made of it. *)
Definition undatable (fields : list (string * value)) : bool :=
  match lookup_field "updated_at" fields with
  | Some w => unprintable w
  | None => false
  end.

(** The same on any value the sort may meet. *)
Definition dateless (repo : value) : bool :=
  match repo with
  | JObj fields => undatable fields
  | _ => false
  end.

Section Dates.
Variable Date_parse : string -> option Z.

(** The record was updated at the time [t]: its [updated_at] is a text
    that [Date.parse] reads as [t]. *)
Definition stamped (fields : list (string * value)) (t : Z) : Prop :=
  exists s, lookup_field "updated_at" fields = Some (JStr s) /\ Date_parse s = Some t.

(** [a] was updated no earlier than [b]. *)
Definition not_older (a b : list (string * value)) : Prop :=
  exists ta tb, stamped a ta /\ stamped b tb /\ tb <= ta.

(** The same on the values the sort meets: records with a date. *)
Definition dated_value (v : value) : Prop :=
  exists fields t, v = JObj fields /\ stamped fields t.

Definition not_older_value (a b : value) : Prop :=
  exists x y, a = JObj x /\ b = JObj y /\ not_older x y.
End Dates.







(** ** The page: the constructor of GitHubReposComponent and [register] *)

(** The key of an array element: a decimal number without leading zeros. *)
Definition array_index (key : string) : option nat :=
  match parse_int (chars key) with
  | Some (n, []) => Some (N.to_nat n)
  | _ => None
  end.

(** The functions of the other built-in prototypes, the constructor
    apart, as of ECMAScript 2023 with its annex B. *)
Definition Array_prototype : list string :=
  ["at"; "concat"; "copyWithin"; "fill"; "find"; "findIndex"; "findLast";
   "findLastIndex"; "lastIndexOf"; "pop"; "push"; "reverse"; "shift"; "unshift";
   "slice"; "sort"; "splice"; "includes"; "indexOf"; "join"; "keys"; "entries";
   "values"; "forEach"; "filter"; "flat"; "flatMap"; "map"; "every"; "some";
   "reduce"; "reduceRight"; "toReversed"; "toSorted"; "toSpliced"; "with";
   "toLocaleString"; "toString"]%string.

Definition String_prototype : list string :=
  ["anchor"; "at"; "big"; "blink"; "bold"; "charAt"; "charCodeAt"; "codePointAt";
   "concat"; "endsWith"; "fontcolor"; "fontsize"; "fixed"; "includes"; "indexOf";
   "isWellFormed"; "italics"; "lastIndexOf"; "link"; "localeCompare"; "match";
   "matchAll"; "normalize"; "padEnd"; "padStart"; "repeat"; "replace";
   "replaceAll"; "search"; "slice"; "small"; "split"; "strike"; "sub"; "substr";
   "substring"; "sup"; "startsWith"; "toString"; "toWellFormed"; "trim";
   "trimStart"; "trimEnd"; "toLocaleLowerCase"; "toLocaleUpperCase";
   "toLowerCase"; "toUpperCase"; "valueOf"]%string.

Definition Number_prototype : list string :=
  ["toExponential"; "toFixed"; "toPrecision"; "toString"; "valueOf";
   "toLocaleString"]%string.

Definition Boolean_prototype : list string :=
  ["toString"; "valueOf"]%string.

(** The string form of what a value that is no object inherits under
    [key] from the prototype of its kind, and behind it from
    [Object.prototype].  The prototype itself, under [__proto__], prints
    as the empty array, the empty string, zero and [false] do. *)
Definition inherited_from (constructor : string) (members : list string)
    (prototype_text : string) (key : string) : option (list ascii) :=
  if String.eqb key "constructor" then Some (native_code constructor)
  else if String.eqb key "__proto__" then Some (chars prototype_text)
  else if String.eqb key "trimLeft" && existsb (String.eqb "trimStart") members
  then Some (native_code "trimStart")
  else if String.eqb key "trimRight" && existsb (String.eqb "trimEnd") members
  then Some (native_code "trimEnd")
  else if existsb (String.eqb key) members then Some (native_code key)
  else inherited key.

(** [repo[key]] on any value read from JSON, for a key of word
    characters: a [TypeError] on [null]; the field of an object; the length
    and the elements of an array; the length and the characters of a
    string; and behind these what the value inherits, given as its string
    form ([inr]). *)
Definition property (repo : value) (key : string)
  : error + (option value + list ascii) :=
  let behind (own : option value) (rest : option (list ascii)) :=
    match own, rest with
    | Some v, _ => inr (inl (Some v))
    | None, Some text => inr (inr text)
    | None, None => inr (inl None)
    end in
  match repo with
  | JNull => inl TypeError
  | JObj fields => behind (lookup_field key fields) (inherited key)
  | JArr items =>
      behind
        (if String.eqb key "length" then Some (JNum (Z.of_nat (length items)))
         else match array_index key with
              | Some i => nth_error items i
              | None => None
              end)
        (inherited_from "Array" Array_prototype "" key)
  | JStr s =>
      behind
        (if String.eqb key "length" then Some (JNum (Z.of_nat (String.length s)))
         else match array_index key with
              | Some i =>
                  match nth_error (chars s) i with
                  | Some c => Some (JStr (String c EmptyString))
                  | None => None
                  end
              | None => None
              end)
        (inherited_from "String" String_prototype "" key)
  | JBool _ => behind None (inherited_from "Boolean" Boolean_prototype "false" key)
  | JNum _ | JInf _ =>
      behind None (inherited_from "Number" Number_prototype "0" key)
  end.

(** The replacer of [_render] for any value [repo] that is not [null]. *)
Definition replacer_of (repo : value) (key : list ascii) : error + list ascii :=
  match property repo (str key) with
  | inr (inl (Some v)) => if to_boolean (Some v) then to_chars v else inr []
  | inr (inl None) => inr []
  | inr (inr text) => inr text
  | inl _ => inr []
  end.

(** [_render] on any element of the list it is called on: the anchor it
    appends, or the exception thrown before anything is appended, the
    [TypeError] of [repo.name] on [null] or that of a conversion to a
    string. *)
Definition _render_value (template : string) (repo : value) : error + anchor :=
  name <-? member repo "name" ;;
  address <-? concat_value name ;;
  markup <-? replace (replacer_of repo) (chars template) ;;
  inr {| className := "repo-list-item";
         href := ("https://liamnewmarch.github.io/" ++ address ++ "/")%string;
         innerHTML := str markup |}.

(** [items.forEach(this._render.bind(this))]: the anchors appended, in
    order, and the exception that stopped the loop, if one did. *)
Fixpoint forEach_render (template : string) (items : list value)
  : list anchor * option error :=
  match items with
  | [] => ([], None)
  | repo :: rest =>
      match _render_value template repo with
      | inl e => ([], Some e)
      | inr a =>
          let '(more, thrown) := forEach_render template rest in (a :: more, thrown)
      end
  end.

(** The success callback of the constructor, [repos.forEach(...)]: a
    [TypeError] when [repos] has no [forEach] method. *)
Definition render_repos (template : string) (repos : value)
  : list anchor * option error :=
  match repos with
  | JArr items => forEach_render template items
  | _ => ([], Some TypeError)
  end.

Definition renders (template : string) : callback value :=
  fun repos => snd (render_repos template repos).

(** An error converted to a string, as the message of [new Error(error)]:
    of the text of a native error the model keeps the name. *)
Definition error_text (e : error) : string :=
  match e with
  | SyntaxError => "SyntaxError"
  | TypeError => "TypeError"
  | Thrown what => what
  | ProgressEvent => "[object ProgressEvent]"
  end.

(** The error callback of the constructor, [throw new Error(error)]. *)
Definition rethrows : callback error :=
  fun error => Some (Thrown (error_text error)).

(** The anchors the success callback of a component appended to its
    element in the course of some events. *)
Definition appended (template : string) (evs : list event) : list anchor :=
  flat_map (fun ev => match ev with
                      | SuccessCallback repos => fst (render_repos template repos)
                      | _ => []
                      end) evs.

(** What the two selectors find in the document: the markup of the first
    element with the attribute [github-repos-template], if there is one,
    and for each element with the attribute [github-repos], in document
    order, its attribute [github-username], [None] when it has none. *)
Record document : Type := {
  template_markup : option string;
  containers : list (option string)
}.

(** [_getTemplate]: [document.querySelector(selector).innerHTML], a
    [TypeError] when the selector finds nothing. *)
Definition _getTemplate (doc : document) : error + string :=
  match template_markup doc with
  | Some markup => inr markup
  | None => inl TypeError
  end.

(** The user name of an element: a missing attribute is [null], which
    both the path and the storage key turn into the text "null". *)
Definition username_of (attribute : option string) : string :=
  match attribute with
  | Some name => name
  | None => "null"
  end.

Section Page.
Variable Date_parse : string -> option Z.
Variable reading : sort_reading.

(** The constructor, up to the return of [getRepos]. *)
Definition GitHubReposComponent (doc : document) (attribute : option string)
  : M (option request) :=
  match _getTemplate doc with
  | inl e => throw e
  | inr template =>
      getRepos Date_parse reading (username_of attribute) (renders template) rethrows
  end.

(** [register]: a component for each element found, in order; the
    requests left waiting. *)
Fixpoint construct_each (doc : document) (elements : list (option string))
  : M (list (option request)) :=
  match elements with
  | [] => ret []
  | attribute :: rest =>
      pending <- GitHubReposComponent doc attribute ;;
      more <- construct_each doc rest ;;
      ret (pending :: more)
  end.

Definition register (doc : document) : M (list (option request)) :=
  construct_each doc (containers doc).
End Page.

(** ** More of what the properties speak of *)

(** The filter condition on a record. *)
Definition passes (fields : list (string * value)) : bool :=
  to_boolean (lookup_field "has_pages" fields)
  && negb (includes exclude (lookup_field "name" fields)).

(** The value is an object. *)
Definition is_object (v : value) : bool :=
  match v with
  | JObj _ => true
  | _ => false
  end.

(** What a variable of key [key] is replaced by, for a record: the
    string form of the field of that name when the record has one that is
    not falsy, or the exception of its conversion; nothing when the field
    is falsy; and, when the record has no field of that name, the text of
    the member of [Object.prototype] of that name, or nothing when there
    is none. *)
Inductive substitutes (repo : list (string * value)) (key : string)
  : error + list ascii -> Prop :=
| sub_field v :
    lookup_field key repo = Some v -> ~ falsy (Some v) ->
    substitutes repo key (to_chars v)
| sub_falsy v :
    lookup_field key repo = Some v -> falsy (Some v) ->
    substitutes repo key (inr [])
| sub_constructor :
    lookup_field key repo = None -> key = "constructor"%string ->
    substitutes repo key (inr (chars "function Object() { [native code] }"))
| sub_proto :
    lookup_field key repo = None -> key = "__proto__"%string ->
    substitutes repo key (inr (chars "[object Object]"))
| sub_function :
    lookup_field key repo = None -> In key Object_prototype ->
    substitutes repo key
      (inr (chars "function " ++ chars key ++ chars "() { [native code] }"))
| sub_absent :
    lookup_field key repo = None ->
    ~ In key ("constructor" :: "__proto__" :: Object_prototype)%string ->
    substitutes repo key (inr []).

(** Two opening braces stand side by side somewhere in the text. *)
Fixpoint opens_variable (s : list ascii) : bool :=
  match s with
  | [] => false
  | c :: rest =>
      match rest with
      | [] => false
      | c' :: _ => (Ascii.eqb c "{" && Ascii.eqb c' "{") || opens_variable rest
      end
  end.

(** ** More inputs for examples *)

Definition example_template : string :=
  "<b>{{ name }}</b> {{description}}".

Definition example_document : document :=
  {| template_markup := Some example_template;
     containers := [Some example_user; None; Some example_user] |}.

(** The anchor of a repository with a name and no description under the
    example template. *)
Definition example_anchor (name : string) : anchor :=
  {| className := "repo-list-item";
     href := "https://liamnewmarch.github.io/" ++ name ++ "/";
     innerHTML := "<b>" ++ name ++ "</b> " |}.

(** More repositories with pages: one updated on the same day as
    [repo_y], one updated last of all, one whose flag is a text, and one
    whose name has no string form. *)
Definition repo_a : list (string * value) :=
  [("name", JStr "a"); ("has_pages", JBool true);
   ("updated_at", JStr "2021-01-01")]%string.
Definition repo_z : list (string * value) :=
  [("name", JStr "z"); ("has_pages", JBool true);
   ("updated_at", JStr "2022-06-01T12:00:00Z")]%string.
Definition repo_yes : list (string * value) :=
  [("name", JStr "w"); ("has_pages", JStr "yes");
   ("updated_at", JStr "2019-01-01")]%string.
Definition repo_odd : list (string * value) :=
  [("name", JObj [("toString", JNum 1)]); ("has_pages", JBool true);
   ("updated_at", JStr "2018-01-01")]%string.



(** * Properties *)

(** ** Running the methods *)

Lemma logged_logged w evs evs' : logged (logged w evs) evs' = logged w (evs ++ evs').
Proof. unfold logged; simpl. by rewrite <- app_assoc. Qed.

Lemma logged_nil w : logged w [] = w.
Proof. destruct w; unfold logged; simpl. by rewrite app_nil_r. Qed.

Lemma emit_logged ev w : emit ev w = (logged w [ev], inr tt).
Proof. reflexivity. Qed.

Lemma call_success_run sc v w :
  call_success sc v w =
  (logged w [SuccessCallback v],
   match sc v with None => inr tt | Some e => inl e end).
Proof. unfold call_success, bind, finish; simpl. by destruct (sc v). Qed.

Lemma call_error_run ec e w :
  call_error ec e w =
  (logged w [ErrorCallback e],
   match ec e with None => inr tt | Some e' => inl e' end).
Proof. unfold call_error, bind, finish; simpl. by destruct (ec e). Qed.

Section Runs.
Variable Date_parse : string -> option Z.
Variable reading : sort_reading.
Variable username : string.
Variables (successCallback : callback value) (errorCallback : callback error).

Abbreviation api f := (f Date_parse reading username successCallback errorCallback).
Abbreviation path := (repos_path username).
Abbreviation throws_of r := (match r with None => inr tt | Some e => inl e end).

Lemma fetchUserRepos_run w :
  api fetchUserRepos w = (logged w [XhrSend path], inr (api listening)).
Proof. reflexivity. Qed.

(** The 'load' listener does nothing at all unless the status is 200. *)
Lemma fetch_loaded_other_status status response w :
  status <> 200 -> api fetch_loaded status response w = (w, inr tt).
Proof.
  intros Hs. unfold fetch_loaded.
  destruct (Z.eqb_spec status 200) as [->|_]; [contradiction|reflexivity].
Qed.

(** A response that is not JSON goes to the error callback. *)
Lemma fetch_loaded_not_json response w :
  JSON_parse response = None ->
  api fetch_loaded 200 response w
  = (logged w [ErrorCallback SyntaxError], throws_of (errorCallback SyntaxError)).
Proof.
  intros Hp. unfold fetch_loaded, try_catch, bind, JSON_parse_js; simpl.
  rewrite Hp; simpl. apply call_error_run.
Qed.

(** A response the filter throws on goes to the error callback. *)
Lemma fetch_loaded_filter_throws response data e w :
  JSON_parse response = Some data ->
  filterWithPages Date_parse reading data = inl e ->
  api fetch_loaded 200 response w
  = (logged w [ErrorCallback e], throws_of (errorCallback e)).
Proof.
  intros Hp Hf. unfold fetch_loaded, try_catch, bind, JSON_parse_js; simpl.
  rewrite Hp; simpl. rewrite Hf; simpl. apply call_error_run.
Qed.

(** The 'load' listener on a response it can filter. *)
Lemma fetch_loaded_filtered response data filtered w :
  JSON_parse response = Some data ->
  filterWithPages Date_parse reading data = inr filtered ->
  api fetch_loaded 200 response w
  = match successCallback (JArr filtered) with
    | None =>
        ({| sessionStorage :=
              <[username := JSON_stringify (JArr filtered)]> (sessionStorage w);
            log := log w ++ [SuccessCallback (JArr filtered);
                             StorageSet username (JSON_stringify (JArr filtered))] |},
         inr tt)
    | Some e =>
        (logged w [SuccessCallback (JArr filtered); ErrorCallback e],
         throws_of (errorCallback e))
    end.
Proof.
  intros Hp Hf. unfold fetch_loaded, try_catch, bind, JSON_parse_js; simpl.
  rewrite Hp; simpl. rewrite Hf; simpl. rewrite call_success_run.
  destruct (successCallback (JArr filtered)) as [e|].
  - rewrite call_error_run, logged_logged. reflexivity.
  - unfold storage_set, logged; simpl. by rewrite <- app_assoc.
Qed.

(** [getRepos] when the cache gives nothing to deliver. *)
Lemma getRepos_no_parse w :
  JSON_parse (match sessionStorage w !! username with
              | Some s => s | None => "undefined"%string end) = None ->
  api getRepos w = (logged w [XhrSend path], inr (Some (api listening))).
Proof.
  intros Hp. unfold getRepos, try_catch, bind, storage_get, JSON_parse_js; simpl.
  rewrite Hp; simpl. reflexivity.
Qed.

(** [getRepos] when the cached text parses. *)
Lemma getRepos_parsed text v w :
  sessionStorage w !! username = Some text ->
  JSON_parse text = Some v ->
  api getRepos w
  = match successCallback v with
    | None => (logged w [SuccessCallback v], inr None)
    | Some _ =>
        (logged w [SuccessCallback v; XhrSend path], inr (Some (api listening)))
    end.
Proof.
  intros Hs Hp. unfold getRepos, try_catch, bind, storage_get, JSON_parse_js; simpl.
  rewrite Hs, Hp; simpl. rewrite call_success_run.
  destruct (successCallback v); simpl; [|reflexivity].
  unfold ret, logged; simpl. by rewrite <- app_assoc.
Qed.

Lemma fetchUserRepos_then_run net w :
  api fetchUserRepos_then net w
  = dispatch (api listening) net (logged w [XhrSend path]).
Proof. reflexivity. Qed.

(** A fetch that succeeds: the request, the delivery, the write. *)
Lemma fetch_succeeded w response data filtered :
  JSON_parse response = Some data ->
  filterWithPages Date_parse reading data = inr filtered ->
  successCallback (JArr filtered) = None ->
  api fetchUserRepos_then (XhrLoad 200 response) w
  = ({| sessionStorage :=
          <[username := JSON_stringify (JArr filtered)]> (sessionStorage w);
        log := log w ++ [XhrSend path;
                         SuccessCallback (JArr filtered);
                         StorageSet username (JSON_stringify (JArr filtered))] |},
     inr tt).
Proof.
  intros Hp Hf Hc. rewrite fetchUserRepos_then_run. simpl.
  rewrite (fetch_loaded_filtered response data filtered) by assumption.
  rewrite Hc. unfold logged; simpl. by rewrite <- app_assoc.
Qed.

(** A transport failure reaches the error callback. *)
Lemma fetch_failed w :
  api fetchUserRepos_then XhrError w
  = (logged w [XhrSend path; ErrorCallback ProgressEvent],
     throws_of (errorCallback ProgressEvent)).
Proof.
  rewrite fetchUserRepos_then_run. simpl.
  rewrite call_error_run, logged_logged. reflexivity.
Qed.

(** A response with another status than 200 reaches no callback. *)
Lemma fetch_other_status status response w :
  status <> 200 ->
  api fetchUserRepos_then (XhrLoad status response) w
  = (logged w [XhrSend path], inr tt).
Proof.
  intros Hs. rewrite fetchUserRepos_then_run. simpl.
  by apply fetch_loaded_other_status.
Qed.

End Runs.

(** ** Values *)

(** Induction on values, with the elements of arrays and the fields of
    objects covered. *)
Lemma value_induction (P : value -> Prop) :
  P JNull -> (forall b, P (JBool b)) -> (forall n, P (JNum n)) ->
  (forall negative, P (JInf negative)) ->
  (forall s, P (JStr s)) ->
  (forall items, Forall P items -> P (JArr items)) ->
  (forall fields, Forall (fun kv => P (snd kv)) fields -> P (JObj fields)) ->
  forall v, P v.
Proof.
  intros H_null H_bool H_num H_inf H_str H_arr H_obj. fix rec 1.
  intros [|b|n|negative|s|items|fields];
    [exact H_null | apply H_bool | apply H_num | apply H_inf | apply H_str | |].
  - apply H_arr. induction items as [|x items IH]; constructor; [apply rec | apply IH].
  - apply H_obj. induction fields as [|[k x] fields IH]; constructor;
      [apply rec | apply IH].
Qed.

(** ToBoolean is false on the falsy values and on no other. *)
Lemma to_boolean_falsy v : to_boolean v = false <-> falsy v.
Proof.
  unfold falsy. destruct v as [[|b|n|negative|s|items|fields]|]; simpl.
  - split; [tauto | reflexivity].
  - split; [intros ->; tauto | intros [H|[H|[H|[H|H]]]]; congruence].
  - rewrite negb_false_iff, Z.eqb_eq.
    split; [intros ->; tauto | intros [H|[H|[H|[H|H]]]]; congruence].
  - split; [discriminate | intros [H|[H|[H|[H|H]]]]; discriminate].
  - rewrite negb_false_iff, String.eqb_eq.
    split; [intros ->; tauto | intros [H|[H|[H|[H|H]]]]; congruence].
  - split; [discriminate | intros [H|[H|[H|[H|H]]]]; discriminate].
  - split; [discriminate | intros [H|[H|[H|[H|H]]]]; discriminate].
  - split; [tauto | reflexivity].
Qed.

Lemma to_boolean_truthy v : to_boolean v = true <-> ~ falsy v.
Proof.
  rewrite <- to_boolean_falsy. destruct (to_boolean v); split; congruence.
Qed.

(** ToString throws on the values without a string form, a [TypeError],
    and on no other. *)
Lemma to_chars_unprintable v :
  match to_chars v with
  | inl e => e = TypeError /\ unprintable v = true
  | inr _ => unprintable v = false
  end.
Proof.
  induction v as [|b|n|negative|s|items IH|fields _] using value_induction;
    try reflexivity.
  - by destruct b.
  - cbn [to_chars unprintable].
    induction IH as [|x items Hx _ IHl]; [reflexivity|].
    cbn [join_thrown existsb].
    assert (Hpiece :
      match (match x with JNull => inr [] | _ => to_chars x end) with
      | inl e => e = TypeError /\ unprintable x = true
      | inr _ => unprintable x = false
      end) by (by destruct x).
    destruct (match x with JNull => inr [] | _ => to_chars x end) as [e|first].
    + destruct Hpiece as [-> ->]. by split.
    + rewrite Hpiece. simpl. destruct items as [|y more]; [reflexivity|].
      destruct (join_thrown _ (y :: more)) as [e|rest]; assumption.
  - simpl. destruct (lookup_field "toString" fields); [by split | reflexivity].
Qed.

(** ** The filter *)

Lemma includes_exclude_spec fields :
  includes exclude (lookup_field "name" fields) = true <-> name_excluded fields.
Proof.
  unfold name_excluded, includes.
  destruct (lookup_field "name" fields) as [[]|] eqn:E;
    try (split; [discriminate | intros (s0 & Hs & _); discriminate]).
  rewrite existsb_exists. split.
  - intros (x & Hin & Heq). apply String.eqb_eq in Heq. subst x. eauto.
  - intros (s0 & Hs & Hin). injection Hs as ->. exists s0.
    split; [assumption | apply String.eqb_refl].
Qed.

(** The filter condition keeps the records that are wanted. *)
Lemma passes_wanted fields : passes fields = true <-> wanted fields.
Proof.
  unfold passes, wanted.
  rewrite andb_true_iff, negb_true_iff, to_boolean_truthy, <- includes_exclude_spec.
  destruct (includes exclude (lookup_field "name" fields)); intuition congruence.
Qed.

(** On a record the filter callback does not throw. *)
Lemma keeps_record fields : keeps (JObj fields) = inr (passes fields).
Proof.
  unfold keeps, passes; simpl.
  by destruct (to_boolean (lookup_field "has_pages" fields)).
Qed.

Lemma filter_array_passes (records : list (list (string * value))) :
  filter_array (map JObj records) = inr (map JObj (List.filter passes records)).
Proof.
  induction records as [|fields records IH]; simpl; [reflexivity|].
  rewrite IH, keeps_record. by destruct (passes fields).
Qed.

(** The records the filter keeps and those it drops make up the input. *)
Lemma filter_split (records : list (list (string * value))) :
  Permutation records
    (List.filter passes records ++ List.filter (fun r => negb (passes r)) records).
Proof.
  induction records as [|fields records IH]; simpl; [reflexivity|].
  destruct (passes fields); simpl.
  - by constructor.
  - rewrite IH at 1. apply Permutation_middle.
Qed.

(** ** The sort *)

Section SortFacts.
Context {A : Type} (reading : sort_reading) (cmp : A -> A -> error + Z).

Lemma insert_back_perm x placed r :
  insert_back reading cmp x placed = inr r -> Permutation r (x :: placed).
Proof.
  revert r. induction placed as [|y ys IH]; simpl; intros r.
  - by intros [= <-].
  - destruct (moves_before reading cmp x y) as [e|[]]; [discriminate| |].
    + destruct (insert_back reading cmp x ys) as [e|more]; [discriminate|].
      intros [= <-]. rewrite (IH more eq_refl). apply perm_swap.
    + by intros [= <-].
Qed.

Lemma place_all_perm l : forall placed r,
  place_all reading cmp l placed = inr r -> Permutation r (rev l ++ placed).
Proof.
  induction l as [|x l IH]; intros placed r; simpl.
  - by intros [= <-].
  - destruct (insert_back reading cmp x placed) as [e|placed'] eqn:E; [discriminate|].
    intros H. rewrite (IH _ _ H), (insert_back_perm _ _ _ E), <- app_assoc.
    reflexivity.
Qed.

(** The sort rearranges and neither loses nor invents an element. *)
Lemma sort_perm l out : sort reading cmp l = inr out -> Permutation out l.
Proof.
  unfold sort. destruct (place_all reading cmp l []) as [e|placed] eqn:E;
    [discriminate|].
  intros [= <-]. rewrite <- Permutation_rev, (place_all_perm _ _ _ E), app_nil_r.
  symmetry. apply Permutation_rev.
Qed.

(** The order of the result, on elements [P] that the comparison function
    answers for: [R x y] may be relied on when [x] moved before [y], and
    [R y x] when it stayed behind. *)
Section Ordered.
Variable R : A -> A -> Prop.
Variable P : A -> Prop.
Hypothesis R_trans : forall x y z, R x y -> R y z -> R x z.
Hypothesis answered :
  forall x y, P x -> P y -> exists forward, moves_before reading cmp x y = inr forward.
Hypothesis moved :
  forall x y, P x -> P y -> moves_before reading cmp x y = inr true -> R x y.
Hypothesis stayed :
  forall x y, P x -> P y -> moves_before reading cmp x y = inr false -> R y x.

Lemma insert_back_sorted x placed :
  P x -> Forall P placed ->
  StronglySorted (flip R) placed ->
  exists r, insert_back reading cmp x placed = inr r
            /\ Forall P r /\ StronglySorted (flip R) r.
Proof using R_trans answered moved stayed.
  intros Hx HP Hs. induction placed as [|y ys IH]; simpl.
  - exists [x]. repeat split; repeat constructor; assumption.
  - apply Forall_cons_1 in HP as [Hy HP].
    apply StronglySorted_inv in Hs as [Hs Hall].
    destruct (answered x y Hx Hy) as [forward E]. rewrite E.
    destruct forward.
    + destruct (IH HP Hs) as (more & Em & HPm & Hsm). rewrite Em.
      exists (y :: more). split; [reflexivity|]. split; [by constructor|].
      constructor; [assumption|].
      rewrite (insert_back_perm x ys more Em). constructor; [|assumption].
      unfold flip. auto.
    + exists (x :: y :: ys). split; [reflexivity|].
      split; [repeat constructor; assumption|].
      constructor; [constructor; assumption|].
      constructor; [unfold flip; auto|].
      eapply Forall_impl; [exact Hall|].
      unfold flip. intros z Hz. eapply R_trans; eauto.
Qed.

Lemma place_all_sorted l : forall placed,
  Forall P l -> Forall P placed ->
  StronglySorted (flip R) placed ->
  exists r, place_all reading cmp l placed = inr r /\ StronglySorted (flip R) r.
Proof using R_trans answered moved stayed.
  induction l as [|x l IH]; intros placed Hl HP Hs; simpl; [eauto|].
  apply Forall_cons_1 in Hl as [Hx Hl].
  destruct (insert_back_sorted x placed Hx HP Hs) as (placed' & -> & HP' & Hs').
  by apply IH.
Qed.

Lemma rev_sorted l : StronglySorted (flip R) l -> StronglySorted R (rev l).
Proof.
  induction 1 as [|x l Hs IH Hall]; simpl; [constructor|].
  apply StronglySorted_app. split; [|split; [assumption | repeat constructor]].
  intros a b Ha Hb. apply list_elem_of_singleton in Hb as ->.
  rewrite list_elem_of_In, <- in_rev, <- list_elem_of_In in Ha.
  rewrite Forall_forall in Hall. by apply Hall.
Qed.

(** On elements the comparison orders, the sort returns, and its result
    is in order. *)
Lemma sort_sorted l :
  Forall P l -> exists out, sort reading cmp l = inr out /\ StronglySorted R out.
Proof using R_trans answered moved stayed.
  intros Hl. unfold sort.
  destruct (place_all_sorted l [] Hl) as (placed & -> & Hs); [constructor..|].
  exists (rev placed). split; [reflexivity | by apply rev_sorted].
Qed.
End Ordered.

(** When the sort throws: the comparison function throws [thrown] on the
    elements marked [bad], whichever side they stand on, and on no
    other. *)
Section Throwing.
Variable bad : A -> bool.
Variable thrown : error.
Hypothesis throws :
  forall x y, bad x = true \/ bad y = true ->
              moves_before reading cmp x y = inl thrown.
Hypothesis answers :
  forall x y, bad x = false -> bad y = false ->
              exists forward, moves_before reading cmp x y = inr forward.

Lemma insert_back_good x placed :
  bad x = false -> Forall (fun y => bad y = false) placed ->
  exists r, insert_back reading cmp x placed = inr r
            /\ Forall (fun y => bad y = false) r.
Proof using answers.
  intros Hx HP. induction HP as [|y ys Hy HP IH]; simpl.
  - exists [x]. split; [reflexivity | by repeat constructor].
  - destruct (answers x y Hx Hy) as [[] ->].
    + destruct IH as (more & -> & Hmore). exists (y :: more).
      split; [reflexivity | by constructor].
    + exists (x :: y :: ys). split; [reflexivity | by repeat constructor].
Qed.

Lemma place_all_good l : forall placed,
  Forall (fun y => bad y = false) l -> Forall (fun y => bad y = false) placed ->
  exists r, place_all reading cmp l placed = inr r.
Proof using answers.
  induction l as [|x l IH]; intros placed Hl HP; simpl; [eauto|].
  apply Forall_cons_1 in Hl as [Hx Hl].
  destruct (insert_back_good x placed Hx HP) as (placed' & -> & HP').
  by apply IH.
Qed.

Lemma place_all_bad l : forall y placed,
  Forall (fun y => bad y = false) (y :: placed) ->
  Exists (fun x => bad x = true) l ->
  place_all reading cmp l (y :: placed) = inl thrown.
Proof using throws answers.
  induction l as [|x l IH]; intros y placed HP Hbad; [by inversion Hbad|].
  cbn [place_all]. destruct (bad x) eqn:Ex.
  - cbn [insert_back]. by rewrite (throws x y) by (by left).
  - destruct (insert_back_good x (y :: placed) Ex HP) as (placed' & E & HP').
    rewrite E. pose proof (insert_back_perm _ _ _ E) as Hperm.
    destruct placed' as [|y' placed'];
      [by apply Permutation_nil_cons in Hperm|].
    apply IH; [assumption|]. apply Exists_cons in Hbad as [Hx|Hl]; [congruence|assumption].
Qed.

(** The sort throws exactly when it has two elements to compare and a
    bad one among its elements. *)
Lemma sort_throws l :
  match sort reading cmp l with
  | inl e =>
      e = thrown /\ (2 <= length l)%nat /\ Exists (fun x => bad x = true) l
  | inr out =>
      (length l <= 1)%nat \/ Forall (fun x => bad x = false) l
  end.
Proof using throws answers.
  assert (Hdec : forall l', Exists (fun x => bad x = true) l'
                            \/ Forall (fun x => bad x = false) l').
  { induction l' as [|x l' [IH|IH]].
    - right. constructor.
    - left. by apply Exists_cons_tl.
    - destruct (bad x) eqn:Ex; [left; by apply Exists_cons_hd | right; by constructor]. }
  unfold sort. destruct l as [|x [|x2 rest]].
  - left. simpl. lia.
  - left. simpl. lia.
  - change (place_all reading cmp (x :: x2 :: rest) [])
      with (place_all reading cmp (x2 :: rest) [x]).
    cbn [length]. destruct (bad x) eqn:Ex.
    + cbn [place_all insert_back]. rewrite (throws x2 x) by (by right).
      split; [reflexivity|]. split; [lia | by apply Exists_cons_hd].
    + assert (Hone : Forall (fun y => bad y = false) [x])
        by (constructor; [assumption | constructor]).
      destruct (Hdec (x2 :: rest)) as [Hbad|Hgood].
      * rewrite (place_all_bad (x2 :: rest) x [] Hone Hbad).
        split; [reflexivity|]. split; [lia | by apply Exists_cons_tl].
      * destruct (place_all_good (x2 :: rest) [x] Hgood Hone) as (r & ->).
        right. by constructor.
Qed.
End Throwing.
End SortFacts.

Section FilterWithPages.
Variable Date_parse : string -> option Z.
Variable reading : sort_reading.

Lemma not_older_trans x y z :
  not_older Date_parse x y -> not_older Date_parse y z -> not_older Date_parse x z.
Proof.
  intros (tx & ty & Hx & Hy & Hxy) (ty' & tz & Hy' & Hz & Hyz).
  destruct Hy as (s & Hs & Ht), Hy' as (s' & Hs' & Ht').
  rewrite Hs in Hs'. injection Hs' as <-. rewrite Ht in Ht'. injection Ht' as <-.
  exists tx, tz. repeat split; [assumption | assumption | lia].
Qed.

(** The date the comparison function makes of a record: none when its
    [updated_at] has no string form, the time it is stamped with when it
    has one. *)
Lemma new_Date_undatable fields :
  match new_Date Date_parse (lookup_field "updated_at" fields) with
  | inl e => e = TypeError /\ undatable fields = true
  | inr _ => undatable fields = false
  end.
Proof.
  unfold undatable, new_Date, to_string.
  destruct (lookup_field "updated_at" fields) as [w|]; [|reflexivity].
  pose proof (to_chars_unprintable w) as Hw.
  destruct w; try reflexivity; destruct (to_chars _); tauto.
Qed.

Lemma new_Date_stamped fields t :
  stamped Date_parse fields t ->
  new_Date Date_parse (lookup_field "updated_at" fields) = inr (Some t).
Proof. intros (s & -> & Ht). exact (f_equal inr Ht). Qed.

(** The comparison function throws on the records without a date, on
    whichever side, and on no other value. *)
Lemma comparefn_throws x y :
  dateless x = true \/ dateless y = true ->
  moves_before reading (comparefn Date_parse) x y = inl TypeError.
Proof.
  assert (Hbad : forall r, dateless r = true ->
                           new_Date Date_parse (updated_at r) = inl TypeError).
  { intros [| | | | | |fields]; try discriminate. simpl. intros Hr.
    pose proof (new_Date_undatable fields) as H.
    destruct (new_Date _ _); [by destruct H as [-> _] | congruence]. }
  assert (Hany : forall r, dateless r = false ->
                           exists d, new_Date Date_parse (updated_at r) = inr d).
  { intros r Hr. destruct r as [| | | | | |fields]; simpl; eauto.
    pose proof (new_Date_undatable fields) as H. simpl in Hr.
    destruct (new_Date _ _); [destruct H; congruence | eauto]. }
  intros Hxy. unfold moves_before, comparefn.
  destruct (dateless x) eqn:Ex, (dateless y) eqn:Ey;
    try (destruct Hxy; discriminate);
    destruct reading;
    rewrite ?(Hbad x Ex), ?(Hbad y Ey); try reflexivity.
  - destruct (Hany y Ey) as [d ->]. reflexivity.
  - destruct (Hany x Ex) as [d ->]. reflexivity.
Qed.

Lemma comparefn_answers x y :
  dateless x = false -> dateless y = false ->
  exists forward, moves_before reading (comparefn Date_parse) x y = inr forward.
Proof.
  assert (Hany : forall r, dateless r = false ->
                           exists d, new_Date Date_parse (updated_at r) = inr d).
  { intros r Hr. destruct r as [| | | | | |fields]; simpl; eauto.
    pose proof (new_Date_undatable fields) as H. simpl in Hr.
    destruct (new_Date _ _); [destruct H; congruence | eauto]. }
  intros Hx Hy. destruct (Hany x Hx) as [dx Ex], (Hany y Hy) as [dy Ey].
  unfold moves_before, comparefn. destruct reading; rewrite Ex, Ey; eauto.
Qed.

Lemma comparefn_stamped x y tx ty :
  stamped Date_parse x tx -> stamped Date_parse y ty ->
  comparefn Date_parse (JObj x) (JObj y) = inr (if ty <? tx then -1 else 1).
Proof.
  intros Hx Hy. unfold comparefn. simpl.
  by rewrite (new_Date_stamped x tx Hx), (new_Date_stamped y ty Hy).
Qed.

Lemma comparefn_answered x y :
  dated_value Date_parse x -> dated_value Date_parse y ->
  exists forward, moves_before reading (comparefn Date_parse) x y = inr forward.
Proof.
  intros (fx & tx & -> & Hx) (fy & ty & -> & Hy). unfold moves_before.
  destruct reading.
  - rewrite (comparefn_stamped fx fy tx ty Hx Hy). eauto.
  - rewrite (comparefn_stamped fy fx ty tx Hy Hx). eauto.
Qed.

Lemma comparefn_moved x y :
  dated_value Date_parse x -> dated_value Date_parse y ->
  moves_before reading (comparefn Date_parse) x y = inr true ->
  not_older_value Date_parse x y.
Proof.
  intros (fx & tx & -> & Hx) (fy & ty & -> & Hy) Hm.
  exists fx, fy. split; [reflexivity|]. split; [reflexivity|].
  exists tx, ty. split; [assumption|]. split; [assumption|].
  unfold moves_before in Hm. destruct reading.
  - rewrite (comparefn_stamped fx fy tx ty Hx Hy) in Hm.
    destruct (Z.ltb_spec ty tx); [lia | discriminate].
  - rewrite (comparefn_stamped fy fx ty tx Hy Hx) in Hm.
    destruct (Z.ltb_spec tx ty); [discriminate | lia].
Qed.

Lemma comparefn_stayed x y :
  dated_value Date_parse x -> dated_value Date_parse y ->
  moves_before reading (comparefn Date_parse) x y = inr false ->
  not_older_value Date_parse y x.
Proof.
  intros (fx & tx & -> & Hx) (fy & ty & -> & Hy) Hm.
  exists fy, fx. split; [reflexivity|]. split; [reflexivity|].
  exists ty, tx. split; [assumption|]. split; [assumption|].
  unfold moves_before in Hm. destruct reading.
  - rewrite (comparefn_stamped fx fy tx ty Hx Hy) in Hm.
    destruct (Z.ltb_spec ty tx); [discriminate | lia].
  - rewrite (comparefn_stamped fy fx ty tx Hy Hx) in Hm.
    destruct (Z.ltb_spec tx ty); [lia | discriminate].
Qed.

Lemma not_older_value_trans x y z :
  not_older_value Date_parse x y -> not_older_value Date_parse y z ->
  not_older_value Date_parse x z.
Proof.
  intros (a & b & -> & -> & Hab) (b' & c & [= <-] & -> & Hbc).
  exists a, c. split; [reflexivity|]. split; [reflexivity|].
  by apply (not_older_trans a b c).
Qed.

Lemma sorted_records out :
  StronglySorted (not_older_value Date_parse) (map JObj out) ->
  StronglySorted (not_older Date_parse) out.
Proof.
  induction out as [|x out IH]; simpl; intros Hs; [constructor|].
  apply StronglySorted_inv in Hs as [Hs Hall]. constructor; [by apply IH|].
  apply Forall_forall. intros y Hy. rewrite Forall_forall in Hall.
  destruct (Hall (JObj y)) as (a & b & [= <-] & [= <-] & Hab); [|assumption].
  apply list_elem_of_In, in_map. by apply list_elem_of_In.
Qed.

(** What [filterWithPages] does on records: it throws the [TypeError] of
    the comparison function when it has two records to compare and one
    without a date among them, and returns the records the filter keeps,
    rearranged, otherwise. *)
Lemma filterWithPages_records (records : list (list (string * value))) :
  match filterWithPages Date_parse reading (JArr (map JObj records)) with
  | inl e =>
      e = TypeError
      /\ (2 <= length (List.filter passes records))%nat
      /\ exists fields, In fields records /\ passes fields = true
                        /\ undatable fields = true
  | inr out =>
      exists kept, out = map JObj kept
                   /\ Permutation kept (List.filter passes records)
                   /\ ((length kept <= 1)%nat
                       \/ Forall (fun fields => undatable fields = false) kept)
  end.
Proof.
  unfold filterWithPages. rewrite filter_array_passes.
  pose proof (sort_throws reading (comparefn Date_parse) dateless TypeError
                comparefn_throws comparefn_answers
                (map JObj (List.filter passes records))) as Hs.
  pose proof (sort_perm reading (comparefn Date_parse)
                (map JObj (List.filter passes records))) as Hp.
  destruct (sort reading (comparefn Date_parse) _) as [e|out].
  - destruct Hs as (-> & Hlen & Hbad). rewrite length_map in Hlen.
    split; [reflexivity|]. split; [assumption|].
    apply Exists_exists in Hbad as (r & Hr & Hd).
    apply list_elem_of_In, in_map_iff in Hr as (fields & <- & Hin).
    apply List.filter_In in Hin as [Hin Hpass]. by exists fields.
  - specialize (Hp out eq_refl).
    apply Permutation_map_inv in Hp as (kept & -> & Hperm).
    exists kept. split; [reflexivity|]. split; [by symmetry|].
    rewrite length_map in Hs. rewrite (Permutation_length Hperm) in Hs.
    destruct Hs as [Hs|Hs]; [by left | right].
    apply Forall_forall. intros fields Hin. rewrite Forall_forall in Hs.
    apply (Hs (JObj fields)).
    apply list_elem_of_In, in_map. apply list_elem_of_In.
    by rewrite Hperm.
Qed.


(** C3.  For every list of repository records in which each wanted
    record has an [updated_at] that is the text of a valid date,
    [filterWithPages] returns a list of records: the wanted records of the
    input, each as often as the input has it and no other, in an order in
    which every record is followed only by records updated at the same
    time or earlier.  The list is the same in every run: whatever the
    world, the user and the callbacks, a fetch answered with these records
    hands this very list to the success callback. *)
Theorem filterWithPages_newest_first (records : list (list (string * value))) :
  (forall fields, In fields records -> wanted fields ->
                  exists t, stamped Date_parse fields t) ->
  exists out dropped,
    filterWithPages Date_parse reading (JArr (map JObj records)) = inr (map JObj out)
    /\ Permutation records (out ++ dropped)
    /\ Forall wanted out
    /\ Forall (fun fields => ~ wanted fields) dropped
    /\ StronglySorted (not_older Date_parse) out
    /\ forall username successCallback errorCallback response w,
         JSON_parse response = Some (JArr (map JObj records)) ->
         exists tail,
           log (fst (fetchUserRepos_then Date_parse reading username
                       successCallback errorCallback (XhrLoad 200 response) w))
           = log w ++ XhrSend (repos_path username)
                      :: SuccessCallback (JArr (map JObj out)) :: tail.
Proof.
  intros Hdates.
  assert (Hkept : Forall (dated_value Date_parse)
                         (map JObj (List.filter passes records))).
  { apply Forall_forall. intros r Hr.
    apply list_elem_of_In, in_map_iff in Hr as (fields & <- & Hin).
    apply List.filter_In in Hin as [Hin Hpass]. apply passes_wanted in Hpass.
    destruct (Hdates fields Hin Hpass) as [t Ht]. by exists fields, t. }
  destruct (sort_sorted reading (comparefn Date_parse)
              (not_older_value Date_parse) (dated_value Date_parse)
              not_older_value_trans comparefn_answered comparefn_moved
              comparefn_stayed _ Hkept) as (sorted & Hsort & Hsorted).
  pose proof (sort_perm reading (comparefn Date_parse) _ _ Hsort) as Hperm.
  apply Permutation_map_inv in Hperm as (out & -> & Hperm).
  assert (Hrun : filterWithPages Date_parse reading (JArr (map JObj records))
                 = inr (map JObj out)).
  { unfold filterWithPages. by rewrite filter_array_passes. }
  exists out, (List.filter (fun r => negb (passes r)) records).
  split; [assumption|]. split; [|split; [|split; [|split]]].
  - rewrite <- Hperm. apply filter_split.
  - apply Forall_forall. intros fields Hin. apply passes_wanted.
    apply list_elem_of_In in Hin.
    apply (Permutation_in _ (Permutation_sym Hperm)), List.filter_In in Hin.
    tauto.
  - apply Forall_forall. intros fields Hin. rewrite <- passes_wanted.
    apply list_elem_of_In, List.filter_In in Hin as [_ Hin].
    by destruct (passes fields).
  - by apply sorted_records.
  - intros username successCallback errorCallback response w Hp.
    rewrite fetchUserRepos_then_run. simpl.
    rewrite (fetch_loaded_filtered _ _ _ _ _ response _ (map JObj out) _ Hp Hrun).
    destruct (successCallback (JArr (map JObj out))); simpl;
      rewrite <- app_assoc; simpl; eauto.
Qed.

End FilterWithPages.

(** ** The template pattern *)

Lemma word_not_space c : is_word c = true -> is_space c = false.
Proof. destruct c as [[] [] [] [] [] [] [] []]; vm_compute; congruence. Qed.

Lemma skip_space_spaces ws s :
  Forall (fun c => is_space c = true) ws -> skip_space (ws ++ s) = skip_space s.
Proof. induction 1 as [|c ws Hc _ IH]; simpl; [reflexivity|]. by rewrite Hc. Qed.

Lemma skip_space_stop c s : is_space c = false -> skip_space (c :: s) = c :: s.
Proof. intros H; simpl. by rewrite H. Qed.

Lemma span_word_word key s :
  Forall (fun c => is_word c = true) key ->
  match s with [] => True | c :: _ => is_word c = false end ->
  span_word (key ++ s) = (key, s).
Proof.
  intros Hk Hs. induction Hk as [|c key Hc _ IH]; simpl.
  - destruct s as [|c s]; [reflexivity|]. simpl. by rewrite Hs.
  - by rewrite Hc, IH.
Qed.

Lemma skip_space_length s : (length (skip_space s) <= length s)%nat.
Proof. induction s as [|c s IH]; simpl; [lia|]. destruct (is_space c); simpl; lia. Qed.

Lemma span_word_length s : (length (snd (span_word s)) <= length s)%nat.
Proof.
  induction s as [|c s IH]; simpl; [lia|].
  destruct (is_word c); simpl; [|lia].
  destruct (span_word s); simpl in *; lia.
Qed.

(** A match takes at least the four braces and the key. *)
Lemma templateRegExp_shorter s key rest :
  templateRegExp s = Some (key, rest) -> (length rest < length s)%nat.
Proof.
  unfold templateRegExp. destruct s as [|c1 [|c2 r]]; try discriminate.
  destruct (Ascii.eqb c1 "{" && Ascii.eqb c2 "{"); [|discriminate].
  pose proof (span_word_length (skip_space r)) as H1.
  pose proof (skip_space_length r) as H0.
  destruct (span_word (skip_space r)) as [k r2]. simpl in H1.
  destruct k; [discriminate|].
  pose proof (skip_space_length r2) as H2.
  destruct (skip_space r2) as [|d1 [|d2 r3]]; try discriminate.
  destruct (Ascii.eqb d1 "}" && Ascii.eqb d2 "}"); [|discriminate].
  intros [= _ <-]. simpl in *. lia.
Qed.

(** The pattern matches a variable in braces, with the white space
    around the key left out of the capture. *)
Lemma templateRegExp_token ws1 key ws2 rest :
  Forall (fun c => is_space c = true) ws1 ->
  Forall (fun c => is_space c = true) ws2 ->
  Forall (fun c => is_word c = true) key -> key <> [] ->
  templateRegExp (chars "{{" ++ ws1 ++ key ++ ws2 ++ chars "}}" ++ rest)
  = Some (key, rest).
Proof.
  intros H1 H2 Hk Hne. unfold templateRegExp; simpl.
  rewrite skip_space_spaces by assumption.
  destruct key as [|k key]; [contradiction|].
  apply Forall_cons_1 in Hk as [Hk0 Hk].
  rewrite <- app_comm_cons, skip_space_stop by (by apply word_not_space).
  rewrite app_comm_cons, span_word_word.
  - rewrite skip_space_spaces by assumption. reflexivity.
  - by constructor.
  - destruct H2 as [|c ws2 Hc _]; simpl; [reflexivity|].
    destruct (is_word c) eqn:E; [|reflexivity].
    apply word_not_space in E. congruence.
Qed.

Section Replace.
Variable fn : list ascii -> error + list ascii.

(** The scan never runs out of fuel: any fuel from the length of the
    text on gives the same result. *)
Lemma replace_go_enough f1 f2 s :
  (length s <= f1)%nat -> (length s <= f2)%nat ->
  replace_go f1 fn s = replace_go f2 fn s.
Proof.
  revert f2 s. induction f1 as [|f1 IH]; intros f2 s H1 H2.
  - destruct s; [|simpl in H1; lia]. by destruct f2.
  - destruct f2 as [|f2].
    + destruct s; [reflexivity | simpl in H2; lia].
    + simpl. destruct (templateRegExp s) as [[key rest]|] eqn:E.
      * apply templateRegExp_shorter in E. rewrite (IH f2 rest) by lia.
        reflexivity.
      * destruct s as [|c r]; [reflexivity|].
        rewrite (IH f2 r) by (simpl in *; lia). reflexivity.
Qed.

Lemma replace_match s key rest :
  templateRegExp s = Some (key, rest) ->
  replace fn s
  = (text <-? fn key ;; more <-? replace fn rest ;; inr (text ++ more)).
Proof.
  intros E. unfold replace. destruct s as [|c s]; [discriminate|].
  simpl length. cbn [replace_go]. rewrite E.
  apply templateRegExp_shorter in E.
  rewrite (replace_go_enough (length s) (length rest) rest) by (simpl in *; lia).
  reflexivity.
Qed.

Lemma replace_copy c s :
  templateRegExp (c :: s) = None ->
  replace fn (c :: s) = (more <-? replace fn s ;; inr (c :: more)).
Proof.
  intros E. unfold replace. simpl length. cbn [replace_go]. by rewrite E.
Qed.
End Replace.

(** The replacer gives what a variable is to be replaced by. *)
Lemma replacer_substitutes repo key :
  substitutes repo (str key) (replacer repo key).
Proof.
  unfold replacer. destruct (lookup_field (str key) repo) as [v|] eqn:E.
  - destruct (to_boolean (Some v)) eqn:Ev.
    + apply sub_field; [assumption | by apply to_boolean_truthy].
    + apply (sub_falsy _ _ v); [assumption | by apply to_boolean_falsy].
  - unfold inherited.
    destruct (String.eqb_spec (str key) "constructor") as [Hc|Hc];
      [by apply sub_constructor|].
    destruct (String.eqb_spec (str key) "__proto__") as [Hp|Hp];
      [by apply sub_proto|].
    destruct (existsb (String.eqb (str key)) Object_prototype) eqn:Ex.
    + apply sub_function; [assumption|].
      apply existsb_exists in Ex as (name & Hin & Heq).
      apply String.eqb_eq in Heq. by subst name.
    + apply sub_absent; [assumption|].
      intros [H|[H|H]]; [congruence | congruence |].
      assert (existsb (String.eqb (str key)) Object_prototype = true);
        [|congruence].
      apply existsb_exists. exists (str key).
      split; [assumption | apply String.eqb_refl].
Qed.

(** What a variable is replaced by is settled by the record and the
    key. *)
Lemma substitutes_unique repo key r r' :
  substitutes repo key r -> substitutes repo key r' -> r = r'.
Proof.
  assert (Hno1 : ~ In "constructor"%string Object_prototype)
    by (intros H; repeat (destruct H as [H|H]; [discriminate|]); destruct H).
  assert (Hno2 : ~ In "__proto__"%string Object_prototype)
    by (intros H; repeat (destruct H as [H|H]; [discriminate|]); destruct H).
  intros H H'.
  destruct H as [v Hv Ht|v Hv Hf|Hn Hk|Hn Hk|Hn Hin|Hn Hout];
    destruct H' as [v' Hv' Ht'|v' Hv' Hf'|Hn' Hk'|Hn' Hk'|Hn' Hin'|Hn' Hout'];
    try reflexivity; try congruence;
    try (assert (v = v') by congruence; subst v'; contradiction);
    try (exfalso; subst key; tauto);
    try (exfalso; subst key; simpl in *; tauto).
  - exfalso. apply Hout'. right. by right.
  - exfalso. apply Hout. right. by right.
Qed.

(** C7, as the code has it.  The renderer replaces each variable in
    double braces, with or without white space around its key of word
    characters, by what [substitutes] tells: the string form of the field
    of that key when it is not falsy, nothing when it is, and, when the
    record has no field of that key, the text of the member of
    [Object.prototype] of that name if there is one, nothing otherwise; a
    field with no string form (an object with a field [toString], or an
    array that holds one) ends the rendering with a [TypeError].  What
    stands where no variable starts is copied.  On the three
    templates of the specification the result is "foo", the empty string
    and "x and y". *)
Theorem render_replaces_variables :
  (forall repo ws1 key ws2 rest,
      Forall (fun c => is_space c = true) ws1 ->
      Forall (fun c => is_space c = true) ws2 ->
      Forall (fun c => is_word c = true) key -> key <> [] ->
      exists by_what,
        substitutes repo (str key) by_what
        /\ (forall other, substitutes repo (str key) other -> other = by_what)
        /\ replace (replacer repo)
             (chars "{{" ++ ws1 ++ key ++ ws2 ++ chars "}}" ++ rest)
           = (text <-? by_what ;;
              more <-? replace (replacer repo) rest ;;
              inr (text ++ more)))
  /\ (forall v,
         match to_chars v with
         | inl e => e = TypeError /\ unprintable v = true
         | inr _ => unprintable v = false
         end)
  /\ (forall repo c rest,
         templateRegExp (c :: rest) = None ->
         replace (replacer repo) (c :: rest)
         = (more <-? replace (replacer repo) rest ;; inr (c :: more)))
  /\ (forall repo, replace (replacer repo) [] = inr [])
  /\ render "{{name}}" [("name"%string, JStr "foo")] = inr "foo"%string
  /\ render "{{missing}}" [] = inr ""%string
  /\ render "{{ a }} and {{b}}" [("a"%string, JStr "x"); ("b"%string, JStr "y")]
     = inr "x and y"%string.
Proof.
  split; [|split; [|split; [|split; [|repeat split]]]].
  - intros repo ws1 key ws2 rest H1 H2 Hk Hne.
    exists (replacer repo key).
    split; [apply replacer_substitutes|]. split.
    + intros other Ho. apply (substitutes_unique repo (str key)); [assumption|].
      apply replacer_substitutes.
    + apply replace_match. by apply templateRegExp_token.
  - apply to_chars_unprintable.
  - intros repo c rest. apply replace_copy.
  - reflexivity.
Qed.

Lemma render_replaces_variables_witness :
  exists by_what,
    substitutes [("name"%string, JNum 7)] (str (chars "name")) by_what
    /\ (forall other,
          substitutes [("name"%string, JNum 7)] (str (chars "name")) other ->
          other = by_what)
    /\ replace (replacer [("name"%string, JNum 7)])
         (chars "{{" ++ chars " " ++ chars "name" ++ [] ++ chars "}}" ++ chars "!")
       = (text <-? by_what ;;
          more <-? replace (replacer [("name"%string, JNum 7)]) (chars "!") ;;
          inr (text ++ more)).
Proof.
  refine (proj1 render_replaces_variables
            [("name"%string, JNum 7)] (chars " ") (chars "name") [] (chars "!")
            _ _ _ _).
  - repeat constructor.
  - constructor.
  - repeat constructor.
  - discriminate.
Defined.

(** C7, as the specification has it, fails: a record without a field
    [constructor] does not render the variable of that key as nothing, but
    as the text of the function it inherits. *)
Lemma inherited_member_is_rendered :
  lookup_field "constructor" [("name"%string, JStr "x")] = None
  /\ render "{{constructor}}|{{name}}" [("name"%string, JStr "x")]
     = inr "function Object() { [native code] }|x"%string
  /\ render "{{constructor}}|{{name}}" [("name"%string, JStr "x")]
     <> inr "|x"%string.
Proof. split; [reflexivity|]. split; [reflexivity | discriminate]. Qed.

(** ** Retrieval: cache first, then the network *)

Section Retrieval.
Variable Date_parse : string -> option Z.
Variable reading : sort_reading.
Variable username : string.
Variables (successCallback : callback value) (errorCallback : callback error).

Abbreviation api f := (f Date_parse reading username successCallback errorCallback).
Abbreviation path := (repos_path username).
Abbreviation throws_of r := (match r with None => inr tt | Some e => inl e end).

(** C4.  When the cached value of the user is present and is not JSON,
    [getRepos] does not throw and calls neither callback: all it does is
    send the request of [fetchUserRepos], which is also all it does when
    nothing is cached. *)
Theorem getRepos_corrupt_cache_fetches w text :
  sessionStorage w !! username = Some text ->
  JSON_parse text = None ->
  api getRepos w = (logged w [XhrSend path], inr (Some (api listening)))
  /\ api getRepos w = (req <- api fetchUserRepos ;; ret (Some req)) w
  /\ forall w0, sessionStorage w0 !! username = None ->
                api getRepos w0
                = (logged w0 [XhrSend path], inr (Some (api listening))).
Proof.
  intros Hs Hp. split; [|split].
  - apply getRepos_no_parse. by rewrite Hs.
  - rewrite getRepos_no_parse by (by rewrite Hs). reflexivity.
  - intros w0 H0. apply getRepos_no_parse. by rewrite H0.
Qed.

(** C10.  When the cached text parses, [getRepos] hands the parsed value
    to the success callback as it is, whatever it is: nothing filters,
    sorts or checks it.  The texts "null" and "{}" parse, to [null] and
    to an object that is no array. *)
Theorem getRepos_delivers_cached_value_as_is w text v :
  sessionStorage w !! username = Some text ->
  JSON_parse text = Some v ->
  api getRepos w
  = match successCallback v with
    | None => (logged w [SuccessCallback v], inr None)
    | Some _ =>
        (logged w [SuccessCallback v; XhrSend path], inr (Some (api listening)))
    end
  /\ JSON_parse "null" = Some JNull
  /\ JSON_parse "{}" = Some (JObj []).
Proof.
  intros Hs Hp. split; [by apply (getRepos_parsed _ _ _ _ _ text)|].
  split; reflexivity.
Qed.

(** C9.  When the response has status 200 and is filtered, and the
    success callback throws, the exception is caught and handed to the
    error callback, and nothing is written to the cache: one call of
    [fetchUserRepos] calls both callbacks. *)
Theorem throwing_success_callback_reaches_error_callback
    w response data filtered e :
  JSON_parse response = Some data ->
  filterWithPages Date_parse reading data = inr filtered ->
  successCallback (JArr filtered) = Some e ->
  api fetchUserRepos_then (XhrLoad 200 response) w
  = (logged w [XhrSend path; SuccessCallback (JArr filtered); ErrorCallback e],
     throws_of (errorCallback e)).
Proof.
  intros Hp Hf Hc. rewrite fetchUserRepos_then_run. simpl.
  rewrite (fetch_loaded_filtered _ _ _ _ _ response data filtered) by assumption.
  rewrite Hc, logged_logged. reflexivity.
Qed.

(** C6, as the code has it.  When the response has status 200 and is
    filtered, and the success callback returns, the callback is called
    with the filtered list first, and then the list is stored under the
    user as its JSON text. *)
Theorem successful_fetch_delivers_then_stores w response data filtered :
  JSON_parse response = Some data ->
  filterWithPages Date_parse reading data = inr filtered ->
  successCallback (JArr filtered) = None ->
  api fetchUserRepos_then (XhrLoad 200 response) w
  = ({| sessionStorage :=
          <[username := JSON_stringify (JArr filtered)]> (sessionStorage w);
        log := log w ++ [XhrSend path;
                         SuccessCallback (JArr filtered);
                         StorageSet username (JSON_stringify (JArr filtered))] |},
     inr tt).
Proof. apply fetch_succeeded. Qed.

(** What an answer does to the cache: nothing, or the one write of a
    fetch that succeeded. *)
Lemma dispatch_writes net w :
  exists evs,
    log (fst (dispatch (api listening) net w)) = log w ++ evs
    /\ ((sessionStorage (fst (dispatch (api listening) net w)) = sessionStorage w
         /\ writes evs = [])
        \/ exists response data filtered,
             net = XhrLoad 200 response
             /\ JSON_parse response = Some data
             /\ filterWithPages Date_parse reading data = inr filtered
             /\ successCallback (JArr filtered) = None
             /\ sessionStorage (fst (dispatch (api listening) net w))
                = <[username := JSON_stringify (JArr filtered)]> (sessionStorage w)
             /\ writes evs = [(username, JSON_stringify (JArr filtered))]).
Proof.
  destruct net as [status response|]; simpl.
  - destruct (Z.eq_dec status 200) as [->|Hne].
    + destruct (JSON_parse response) as [data|] eqn:Hp.
      * destruct (filterWithPages Date_parse reading data) as [e|filtered] eqn:Hf.
        -- rewrite (fetch_loaded_filter_throws _ _ _ _ _ response data e) by assumption.
           eexists; split; [reflexivity|]. left. split; reflexivity.
        -- rewrite (fetch_loaded_filtered _ _ _ _ _ response data filtered)
             by assumption.
           destruct (successCallback (JArr filtered)) as [e|] eqn:Hc.
           ++ eexists; split; [reflexivity|]. left. split; reflexivity.
           ++ eexists; split; [reflexivity|]. right.
              exists response, data, filtered. repeat split; assumption.
      * rewrite fetch_loaded_not_json by assumption.
        eexists; split; [reflexivity|]. left. split; reflexivity.
    + rewrite fetch_loaded_other_status by assumption.
      exists []. split; [by rewrite app_nil_r|]. left. split; reflexivity.
  - rewrite call_error_run. eexists; split; [reflexivity|]. left. split; reflexivity.
Qed.

Lemma writes_app evs evs' : writes (evs ++ evs') = writes evs ++ writes evs'.
Proof.
  induction evs as [|ev evs IH]; simpl; [reflexivity|].
  destruct ev; simpl; by rewrite ?IH.
Qed.

(** C5.  In a run of [getRepos] and of the answer to its request, the
    cache is written only when a request was answered with status 200 and
    a response that was parsed, filtered and delivered: otherwise the
    storage is what it was and no write happened.  On the cache-hit path,
    where the cached text parses and the success callback returns,
    the world changes by that one call only. *)
Theorem cache_written_only_by_successful_fetch net w :
  (exists evs,
      log (fst (api getRepos_then net w)) = log w ++ evs
      /\ ((sessionStorage (fst (api getRepos_then net w)) = sessionStorage w
           /\ writes evs = [])
          \/ exists response data filtered,
               net = XhrLoad 200 response
               /\ In (XhrSend path) evs
               /\ JSON_parse response = Some data
               /\ filterWithPages Date_parse reading data = inr filtered
               /\ successCallback (JArr filtered) = None
               /\ sessionStorage (fst (api getRepos_then net w))
                  = <[username := JSON_stringify (JArr filtered)]> (sessionStorage w)
               /\ writes evs = [(username, JSON_stringify (JArr filtered))]))
  /\ forall text v,
       sessionStorage w !! username = Some text ->
       JSON_parse text = Some v ->
       successCallback v = None ->
       api getRepos_then net w = (logged w [SuccessCallback v], inr tt).
Proof.
  assert (Hsent : forall pre,
    In (XhrSend path) pre -> writes pre = [] ->
    api getRepos w = (logged w pre, inr (Some (api listening))) ->
    exists evs,
      log (fst (api getRepos_then net w)) = log w ++ evs
      /\ ((sessionStorage (fst (api getRepos_then net w)) = sessionStorage w
           /\ writes evs = [])
          \/ exists response data filtered,
               net = XhrLoad 200 response
               /\ In (XhrSend path) evs
               /\ JSON_parse response = Some data
               /\ filterWithPages Date_parse reading data = inr filtered
               /\ successCallback (JArr filtered) = None
               /\ sessionStorage (fst (api getRepos_then net w))
                  = <[username := JSON_stringify (JArr filtered)]> (sessionStorage w)
               /\ writes evs = [(username, JSON_stringify (JArr filtered))])).
  { intros pre Hin Hw Hrun. unfold getRepos_then, bind. rewrite Hrun.
    destruct (dispatch_writes net (logged w pre)) as (evs & Hlog & Hcase).
    exists (pre ++ evs). split; [rewrite Hlog; simpl; by rewrite app_assoc|].
    rewrite writes_app, Hw. simpl.
    destruct Hcase as [[Hst Hnone]|(response & data & filtered & Hcase)].
    - left. split; assumption.
    - right. exists response, data, filtered.
      destruct Hcase as (? & ? & ? & ? & ? & ?).
      repeat split; try assumption. apply in_or_app. by left. }
  split.
  - destruct (sessionStorage w !! username) as [text|] eqn:Hs.
    + destruct (JSON_parse text) as [v|] eqn:Hp.
      * pose proof (getRepos_parsed Date_parse reading username successCallback
                      errorCallback text v w Hs Hp) as Hrun.
        destruct (successCallback v) as [e|] eqn:Hc.
        -- apply (Hsent [SuccessCallback v; XhrSend path]);
             [right; by left | reflexivity | assumption].
        -- unfold getRepos_then, bind. rewrite Hrun. simpl.
           exists [SuccessCallback v]. split; [reflexivity|]. left.
           split; reflexivity.
      * apply (Hsent [XhrSend path]); [by left | reflexivity |].
        apply getRepos_no_parse. by rewrite Hs.
    + apply (Hsent [XhrSend path]); [by left | reflexivity |].
      apply getRepos_no_parse. by rewrite Hs.
  - intros text v Hs Hp Hc. unfold getRepos_then, bind.
    rewrite (getRepos_parsed _ _ _ _ _ text v w Hs Hp), Hc. reflexivity.
Qed.

End Retrieval.

(** ** JSON: what is written is read back *)


Lemma str_chars s : str (chars s) = s.
Proof. apply string_of_list_ascii_of_string. Qed.

(** *** Numbers *)





















(** *** Strings *)




(** *** The first character of a value *)







(** *** Objects *)




(** *** Values *)










(** *** What [JSON.parse] builds is well formed *)





Lemma cons_to_inv {A : Type} (c : A) r l rest :
  cons_to c r = Some (l, rest) -> exists l', l = c :: l' /\ r = Some (l', rest).
Proof.
  destruct r as [[l' rest']|]; simpl; [|discriminate].
  intros [= <- <-]. by exists l'.
Qed.




(** *** The fuel of [JSON.parse] is enough *)

(** More fuel changes no result. *)
Lemma parse_more_fuel fuel :
  (forall s r fuel', parse_value fuel s = Some r -> (fuel <= fuel')%nat ->
                     parse_value fuel' s = Some r)
  /\ (forall s r fuel', parse_elements fuel s = Some r -> (fuel <= fuel')%nat ->
                        parse_elements fuel' s = Some r)
  /\ (forall s r fuel', parse_members fuel s = Some r -> (fuel <= fuel')%nat ->
                        parse_members fuel' s = Some r).
Proof.
  induction fuel as [|fuel (IHv & IHe & IHm)]; [repeat split; discriminate|].
  split; [|split]; intros s r [|fuel'] H Hle; try (clear -Hle; lia);
    assert (Hle' : (fuel <= fuel')%nat) by (clear -Hle; lia).
  - cbn [parse_value] in H |- *.
    destruct (skip_ws s) as [|c r0]; [discriminate|].
    destruct (Ascii.eqb c "[").
    { destruct (skip_ws r0) as [|c' r']; [discriminate|].
      destruct (Ascii.eqb c' "]"); [assumption|].
      destruct (parse_elements fuel r0) as [[items rest]|] eqn:E; [|discriminate].
      by rewrite (IHe _ _ fuel' E Hle'). }
    destruct (Ascii.eqb c "{"); [|assumption].
    destruct (skip_ws r0) as [|c' r']; [discriminate|].
    destruct (Ascii.eqb c' "}"); [assumption|].
    destruct (parse_members fuel r0) as [[members rest]|] eqn:E; [|discriminate].
    by rewrite (IHm _ _ fuel' E Hle').
  - cbn [parse_elements] in H |- *.
    destruct (parse_value fuel s) as [[v r0]|] eqn:Ev; [|discriminate].
    rewrite (IHv _ _ fuel' Ev Hle').
    destruct (skip_ws r0) as [|c r']; [discriminate|].
    destruct (Ascii.eqb c ","); [|assumption].
    destruct (parse_elements fuel r') as [[items rest]|] eqn:E; [|discriminate].
    by rewrite (IHe _ _ fuel' E Hle').
  - cbn [parse_members] in H |- *.
    destruct (skip_ws s) as [|q r0]; [discriminate|].
    destruct (Ascii.eqb q dquote); [|discriminate].
    destruct (parse_string r0) as [[k r1]|]; [|discriminate].
    destruct (skip_ws r1) as [|c1 r2]; [discriminate|].
    destruct (Ascii.eqb c1 ":"); [|discriminate].
    destruct (parse_value fuel r2) as [[v r3]|] eqn:Ev; [|discriminate].
    rewrite (IHv _ _ fuel' Ev Hle').
    destruct (skip_ws r3) as [|c r4]; [discriminate|].
    destruct (Ascii.eqb c ","); [|assumption].
    destruct (parse_members fuel r4) as [[members rest]|] eqn:E; [|discriminate].
    by rewrite (IHm _ _ fuel' E Hle').
Qed.

Lemma skip_ws_length s : (length (skip_ws s) <= length s)%nat.
Proof. induction s as [|c s IH]; simpl; [lia|]. destruct (is_ws c); simpl; lia. Qed.

Lemma skip_ws_cons s c r : skip_ws s = c :: r -> (length r < length s)%nat.
Proof. intros H. pose proof (skip_ws_length s) as Hl. rewrite H in Hl. simpl in Hl. lia. Qed.

Lemma strip_prefix_length p : forall s r,
  strip_prefix p s = Some r -> (length r <= length s)%nat.
Proof.
  induction p as [|a p IH]; intros [|c s] r; simpl; try discriminate.
  - intros [= <-]. simpl. lia.
  - intros [= <-]. simpl. lia.
  - destruct (Ascii.eqb a c); [|discriminate]. intros H. apply IH in H. lia.
Qed.

Lemma parse_digits_length s : forall a,
  (length (snd (parse_digits a s)) <= length s)%nat.
Proof.
  induction s as [|c s IH]; intros a; simpl; [lia|].
  destruct (is_digit c); simpl; [|lia]. specialize (IH (10 * a + digit_val c)%N). lia.
Qed.

Lemma parse_number_length s v r :
  parse_number s = Some (v, r) -> (length r < length s)%nat.
Proof.
  assert (Hint : forall s n r, parse_int s = Some (n, r) -> (length r < length s)%nat).
  { intros [|c s'] n r'; simpl; [discriminate|].
    destruct (Ascii.eqb c "0"); [intros [= _ <-]; lia|].
    destruct (is_digit c); [|discriminate].
    pose proof (parse_digits_length s' (10 * 0 + digit_val c)%N) as Hl.
    destruct (parse_digits _ s') as [n' r'']. simpl in Hl.
    intros [= _ <-]. lia. }
  unfold parse_number. destruct s as [|c s']; [discriminate|].
  destruct (Ascii.eqb c "-").
  - destruct (parse_int s') as [[n r']|] eqn:E; [|discriminate].
    intros [= _ <-]. apply Hint in E. simpl. lia.
  - destruct (parse_int (c :: s')) as [[n r']|] eqn:E; [|discriminate].
    intros [= _ <-]. by apply Hint in E.
Qed.

Lemma parse_string_length s l r :
  parse_string s = Some (l, r) -> (length r < length s)%nat.
Proof.
  remember (length s) as n eqn:Hn. assert (Hle : (length s <= n)%nat) by lia.
  clear Hn. revert s l r Hle.
  induction n as [|n IH]; intros [|c s] l r Hle; simpl in *; try discriminate;
    try (clear -Hle; lia).
  destruct (Ascii.eqb c dquote); [intros [= _ <-]; lia|].
  destruct (Ascii.eqb c backslash).
  - destruct s as [|e s]; [discriminate|].
    destruct (Ascii.eqb e "u").
    + destruct s as [|h1 [|h2 [|h3 [|h4 s]]]]; try discriminate.
      destruct (hex4 h1 h2 h3 h4) as [code|]; [|discriminate].
      destruct (code <? 256)%N; [|discriminate].
      intros H. apply cons_to_inv in H as (l' & _ & H).
      apply IH in H; simpl in *; lia.
    + destruct (unescape e); [|discriminate].
      intros H. apply cons_to_inv in H as (l' & _ & H).
      apply IH in H; simpl in *; lia.
  - destruct (N_of_ascii c <? 32)%N; [discriminate|].
    intros H. apply cons_to_inv in H as (l' & _ & H).
    apply IH in H; simpl in *; lia.
Qed.

(** Every parse consumes a part of its text. *)
Lemma parse_shorter fuel :
  (forall s v r, parse_value fuel s = Some (v, r) -> (length r < length s)%nat)
  /\ (forall s l r, parse_elements fuel s = Some (l, r) -> (length r < length s)%nat)
  /\ (forall s l r, parse_members fuel s = Some (l, r) -> (length r < length s)%nat).
Proof.
  induction fuel as [|fuel (IHv & IHe & IHm)]; [repeat split; discriminate|].
  split; [|split].
  - intros s v r. cbn [parse_value].
    destruct (skip_ws s) as [|c r0] eqn:Es; [discriminate|].
    apply skip_ws_cons in Es.
    destruct (Ascii.eqb c "[").
    { destruct (skip_ws r0) as [|c' r'] eqn:E0; [discriminate|].
      apply skip_ws_cons in E0.
      destruct (Ascii.eqb c' "]"); [intros [= _ <-]; lia|].
      destruct (parse_elements fuel r0) as [[items rest]|] eqn:E; [|discriminate].
      intros [= _ <-]. apply IHe in E. lia. }
    destruct (Ascii.eqb c "{").
    { destruct (skip_ws r0) as [|c' r'] eqn:E0; [discriminate|].
      apply skip_ws_cons in E0.
      destruct (Ascii.eqb c' "}"); [intros [= _ <-]; lia|].
      destruct (parse_members fuel r0) as [[members rest]|] eqn:E; [|discriminate].
      intros [= _ <-]. apply IHm in E. lia. }
    destruct (Ascii.eqb c dquote).
    { destruct (parse_string r0) as [[s' rest]|] eqn:E; [|discriminate].
      intros [= _ <-]. apply parse_string_length in E. lia. }
    destruct (Ascii.eqb c "n").
    { destruct (strip_prefix (chars "ull") r0) eqn:E; [|discriminate].
      intros [= _ <-]. apply strip_prefix_length in E. lia. }
    destruct (Ascii.eqb c "t").
    { destruct (strip_prefix (chars "rue") r0) eqn:E; [|discriminate].
      intros [= _ <-]. apply strip_prefix_length in E. lia. }
    destruct (Ascii.eqb c "f").
    { destruct (strip_prefix (chars "alse") r0) eqn:E; [|discriminate].
      intros [= _ <-]. apply strip_prefix_length in E. lia. }
    intros H. apply parse_number_length in H. simpl in H. lia.
  - intros s l r. cbn [parse_elements].
    destruct (parse_value fuel s) as [[v r0]|] eqn:Ev; [|discriminate].
    apply IHv in Ev.
    destruct (skip_ws r0) as [|c r'] eqn:E0; [discriminate|].
    apply skip_ws_cons in E0.
    destruct (Ascii.eqb c ",").
    { intros H. apply cons_to_inv in H as (l' & _ & H). apply IHe in H. lia. }
    destruct (Ascii.eqb c "]"); [|discriminate]. intros [= _ <-]. lia.
  - intros s l r. cbn [parse_members].
    destruct (skip_ws s) as [|q r0] eqn:Es; [discriminate|].
    apply skip_ws_cons in Es.
    destruct (Ascii.eqb q dquote); [|discriminate].
    destruct (parse_string r0) as [[k r1]|] eqn:Ek; [|discriminate].
    apply parse_string_length in Ek.
    destruct (skip_ws r1) as [|c1 r2] eqn:E1; [discriminate|].
    apply skip_ws_cons in E1.
    destruct (Ascii.eqb c1 ":"); [|discriminate].
    destruct (parse_value fuel r2) as [[v r3]|] eqn:Ev; [|discriminate].
    apply IHv in Ev.
    destruct (skip_ws r3) as [|c r4] eqn:E3; [discriminate|].
    apply skip_ws_cons in E3.
    destruct (Ascii.eqb c ",").
    { intros H. apply cons_to_inv in H as (l' & _ & H). apply IHm in H. lia. }
    destruct (Ascii.eqb c "}"); [|discriminate]. intros [= _ <-]. lia.
Qed.

(** Twice the length of the part a parse consumes is fuel enough for it. *)
Lemma parse_fuel_bound fuel :
  (forall s v r, parse_value fuel s = Some (v, r) ->
                 parse_value (2 * (length s - length r)) s = Some (v, r))
  /\ (forall s l r, parse_elements fuel s = Some (l, r) ->
                    parse_elements (2 * (length s - length r)) s = Some (l, r))
  /\ (forall s l r, parse_members fuel s = Some (l, r) ->
                    parse_members (2 * (length s - length r)) s = Some (l, r)).
Proof.
  induction fuel as [|fuel (IHv & IHe & IHm)]; [repeat split; discriminate|].
  destruct (parse_shorter fuel) as (Sv & Se & Sm).
  split; [|split]; intros s x r H.
  - pose proof (proj1 (parse_shorter (S fuel)) s x r H) as Hlt.
    destruct (2 * (length s - length r))%nat as [|g] eqn:Eg; [clear -Hlt Eg; lia|].
    cbn [parse_value] in H |- *.
    destruct (skip_ws s) as [|c r0] eqn:Es; [discriminate|].
    apply skip_ws_cons in Es.
    destruct (Ascii.eqb c "[").
    { destruct (skip_ws r0) as [|c' r'] eqn:E0; [discriminate|].
      destruct (Ascii.eqb c' "]"); [assumption|].
      destruct (parse_elements fuel r0) as [[items rest]|] eqn:E; [|discriminate].
      injection H as <- <-. pose proof (Se _ _ _ E) as Hr.
      apply IHe in E.
      rewrite (proj1 (proj2 (parse_more_fuel _)) _ _ g E); [reflexivity|].
      clear -Es Eg Hr. lia. }
    destruct (Ascii.eqb c "{"); [|assumption].
    destruct (skip_ws r0) as [|c' r'] eqn:E0; [discriminate|].
    destruct (Ascii.eqb c' "}"); [assumption|].
    destruct (parse_members fuel r0) as [[members rest]|] eqn:E; [|discriminate].
    injection H as <- <-. pose proof (Sm _ _ _ E) as Hr.
    apply IHm in E.
    rewrite (proj2 (proj2 (parse_more_fuel _)) _ _ g E); [reflexivity|].
    clear -Es Eg Hr. lia.
  - pose proof (proj1 (proj2 (parse_shorter (S fuel))) s x r H) as Hlt.
    destruct (2 * (length s - length r))%nat as [|g] eqn:Eg; [clear -Hlt Eg; lia|].
    cbn [parse_elements] in H |- *.
    destruct (parse_value fuel s) as [[v r0]|] eqn:Ev; [|discriminate].
    pose proof (Sv _ _ _ Ev) as Hv. apply IHv in Ev.
    destruct (skip_ws r0) as [|c r'] eqn:E0; [discriminate|].
    pose proof (skip_ws_cons _ _ _ E0) as H0.
    destruct (Ascii.eqb c ",") eqn:Ec.
    + apply cons_to_inv in H as (l' & -> & E).
      pose proof (Se _ _ _ E) as Hr. apply IHe in E.
      rewrite (proj1 (parse_more_fuel _) _ _ g Ev) by (clear -Hv H0 Eg Hr; lia).
      rewrite E0, Ec.
      rewrite (proj1 (proj2 (parse_more_fuel _)) _ _ g E)
        by (clear -Hv H0 Eg Hr; lia).
      reflexivity.
    + destruct (Ascii.eqb c "]") eqn:Eb; [|discriminate]. injection H as <- <-.
      rewrite (proj1 (parse_more_fuel _) _ _ g Ev) by (clear -Hv H0 Eg; lia).
      by rewrite E0, Ec, Eb.
  - pose proof (proj2 (proj2 (parse_shorter (S fuel))) s x r H) as Hlt.
    destruct (2 * (length s - length r))%nat as [|g] eqn:Eg; [clear -Hlt Eg; lia|].
    cbn [parse_members] in H |- *.
    destruct (skip_ws s) as [|q r0] eqn:Es; [discriminate|].
    apply skip_ws_cons in Es.
    destruct (Ascii.eqb q dquote); [|discriminate].
    destruct (parse_string r0) as [[k r1]|] eqn:Ek; [|discriminate].
    apply parse_string_length in Ek.
    destruct (skip_ws r1) as [|c1 r2] eqn:E1; [discriminate|].
    apply skip_ws_cons in E1.
    destruct (Ascii.eqb c1 ":"); [|discriminate].
    destruct (parse_value fuel r2) as [[v r3]|] eqn:Ev; [|discriminate].
    pose proof (Sv _ _ _ Ev) as Hv. apply IHv in Ev.
    destruct (skip_ws r3) as [|c r4] eqn:E3; [discriminate|].
    pose proof (skip_ws_cons _ _ _ E3) as H3.
    destruct (Ascii.eqb c ",") eqn:Ec.
    + apply cons_to_inv in H as (l' & -> & E).
      pose proof (Sm _ _ _ E) as Hr. apply IHm in E.
      rewrite (proj1 (parse_more_fuel _) _ _ g Ev)
        by (clear -Es Ek E1 Hv H3 Eg Hr; lia).
      rewrite E3, Ec.
      rewrite (proj2 (proj2 (parse_more_fuel _)) _ _ g E)
        by (clear -Es Ek E1 Hv H3 Eg Hr; lia).
      reflexivity.
    + destruct (Ascii.eqb c "}") eqn:Eb; [|discriminate]. injection H as <- <-.
      rewrite (proj1 (parse_more_fuel _) _ _ g Ev)
        by (clear -Es Ek E1 Hv H3 Eg; lia).
      by rewrite E3, Ec, Eb.
Qed.

(** A text that any fuel parses, [JSON.parse] parses with its own: where
    [JSON_parse] gives nothing, no fuel would have given a value. *)
Lemma parse_value_fuel_enough fuel s v r :
  parse_value fuel s = Some (v, r) ->
  parse_value (2 * length s + 2) s = Some (v, r).
Proof.
  intros H. apply (proj1 (parse_fuel_bound fuel)) in H.
  apply (proj1 (parse_more_fuel _) _ _ _ H). lia.
Qed.

Lemma JSON_parse_fuel s v :
  (exists fuel rest, parse_value fuel (chars s) = Some (v, rest) /\ skip_ws rest = [])
  <-> JSON_parse s = Some v.
Proof.
  unfold JSON_parse, parse_chars. split.
  - intros (fuel & rest & H & Hrest).
    by rewrite (parse_value_fuel_enough fuel _ v rest H), Hrest.
  - destruct (parse_value _ _) as [[v' rest]|] eqn:E; [|discriminate].
    destruct (skip_ws rest) eqn:Er; [|discriminate]. intros [= <-]. eauto.
Qed.

(** *** The filtered list is well formed *)

Lemma filter_array_subset items : forall kept,
  filter_array items = inr kept -> forall r, In r kept -> In r items.
Proof.
  induction items as [|x items IH]; simpl; intros kept.
  - intros [= <-] r [].
  - destruct (keeps x) as [e|keep]; [discriminate|].
    destruct (filter_array items) as [e|kept']; [discriminate|].
    intros [= <-] r Hr. destruct keep; [destruct Hr as [->|Hr]|];
      [by left | right; by apply (IH kept') ..].
Qed.

Lemma filterWithPages_subset Date_parse reading items filtered :
  filterWithPages Date_parse reading (JArr items) = inr filtered ->
  forall r, In r filtered -> In r items.
Proof.
  unfold filterWithPages.
  destruct (filter_array items) as [e|kept] eqn:Hk; [discriminate|].
  intros Hs r Hr. apply (filter_array_subset items kept Hk).
  by apply (Permutation_in _ (sort_perm reading (comparefn Date_parse) kept _ Hs)).
Qed.


(** ** The cache round trip *)

Section RoundTrip.
Variable Date_parse : string -> option Z.
Variable reading : sort_reading.
Variable username : string.
Variables (successCallback : callback value) (errorCallback : callback error).


End RoundTrip.

(** ** The properties at work *)

(** C1.  A response with status 404 reaches no callback: the request is
    all the log shows, the error callback is not called.  A transport
    failure does reach it. *)
Example fetch_status_404_reaches_no_callback :
  fetchUserRepos_then iso_parse LaterIsLess example_user returns returns
    (XhrLoad 404 "{}") fresh
  = (logged fresh [XhrSend "https://api.github.com/users/liamnewmarch/repos"],
     inr tt)
  /\ fetchUserRepos_then iso_parse LaterIsLess example_user returns returns
       XhrError fresh
     = (logged fresh [XhrSend "https://api.github.com/users/liamnewmarch/repos";
                      ErrorCallback ProgressEvent],
        inr tt).
Proof. split; reflexivity. Qed.

(** The end-to-end example of the specification: of the three
    repositories the response lists, the filtered list holds [x] alone. *)
Example filterWithPages_example :
  JSON_parse example_response = Some (JArr (map JObj example_records))
  /\ filterWithPages iso_parse LaterIsLess (JArr (map JObj example_records))
     = inr [JObj repo_x].
Proof. split; vm_compute; reflexivity. Qed.

(** Six repositories, newest last but one: the two that are not wanted
    are dropped and the other four come out newest first, the one whose
    flag is the text "yes" among them. *)
Example filterWithPages_orders :
  filterWithPages iso_parse LaterIsLess
    (JArr (map JObj [repo_x; repo_y; repo_yes; repo_site; repo_z; repo_a]))
  = inr (map JObj [repo_z; repo_a; repo_x; repo_yes]).
Proof. vm_compute. reflexivity. Qed.


Lemma filterWithPages_newest_first_witness :
  exists out dropped,
    filterWithPages iso_parse LaterIsLess
      (JArr (map JObj [repo_x; repo_y; repo_yes; repo_site; repo_z; repo_a]))
    = inr (map JObj out)
    /\ Permutation [repo_x; repo_y; repo_yes; repo_site; repo_z; repo_a]
                   (out ++ dropped)
    /\ Forall wanted out
    /\ Forall (fun fields => ~ wanted fields) dropped
    /\ StronglySorted (not_older iso_parse) out
    /\ forall username successCallback errorCallback response w,
         JSON_parse response
         = Some (JArr (map JObj [repo_x; repo_y; repo_yes; repo_site; repo_z; repo_a])) ->
         exists tail,
           log (fst (fetchUserRepos_then iso_parse LaterIsLess username
                       successCallback errorCallback (XhrLoad 200 response) w))
           = log w ++ XhrSend (repos_path username)
                      :: SuccessCallback (JArr (map JObj out)) :: tail.
Proof.
  apply (filterWithPages_newest_first iso_parse LaterIsLess
           [repo_x; repo_y; repo_yes; repo_site; repo_z; repo_a]).
  intros fields [<-|[<-|[<-|[<-|[<-|[<-|[]]]]]]] _;
    eexists; eexists; (split; [reflexivity | vm_compute; reflexivity]).
Defined.

Lemma getRepos_corrupt_cache_fetches_witness :
  getRepos iso_parse LaterIsLess example_user returns returns (cached "[{")
  = (logged (cached "[{") [XhrSend (repos_path example_user)],
     inr (Some (listening iso_parse LaterIsLess example_user returns returns))).
Proof.
  refine (proj1 (getRepos_corrupt_cache_fetches iso_parse LaterIsLess example_user
                   returns returns (cached "[{") "[{" _ _)); vm_compute; reflexivity.
Defined.

Lemma cache_written_only_by_successful_fetch_witness :
  getRepos_then iso_parse LaterIsLess example_user returns returns XhrError
    (cached "[]")
  = (logged (cached "[]") [SuccessCallback (JArr [])], inr tt).
Proof.
  refine (proj2 (cache_written_only_by_successful_fetch iso_parse LaterIsLess
                   example_user returns returns XhrError (cached "[]"))
                "[]"%string (JArr []) _ _ _); vm_compute; reflexivity.
Defined.

(** C6, as the specification has it, fails: in a fetch that succeeds the
    list is delivered before anything is written to the cache. *)
Lemma delivered_before_stored :
  ~ stored_before_delivered
      (log (fst (fetchUserRepos_then iso_parse LaterIsLess example_user
                   returns returns (XhrLoad 200 example_response) fresh))).
Proof.
  intros H.
  apply (H [XhrSend (repos_path example_user)] (JArr [JObj repo_x])
           [StorageSet example_user (JSON_stringify (JArr [JObj repo_x]))]);
    vm_compute; reflexivity.
Qed.

Lemma successful_fetch_delivers_then_stores_witness :
  fetchUserRepos_then iso_parse LaterIsLess example_user returns returns
    (XhrLoad 200 example_response) fresh
  = ({| sessionStorage :=
          <[example_user := JSON_stringify (JArr [JObj repo_x])]> ∅;
        log := [XhrSend (repos_path example_user);
                SuccessCallback (JArr [JObj repo_x]);
                StorageSet example_user (JSON_stringify (JArr [JObj repo_x]))] |},
     inr tt).
Proof.
  apply (successful_fetch_delivers_then_stores iso_parse LaterIsLess example_user
           returns returns fresh example_response
           (JArr (map JObj example_records)) [JObj repo_x]);
    vm_compute; reflexivity.
Defined.



Lemma throwing_success_callback_reaches_error_callback_witness :
  fetchUserRepos_then iso_parse LaterIsLess example_user
    (throwing (Thrown "render")) returns (XhrLoad 200 example_response) fresh
  = (logged fresh [XhrSend (repos_path example_user);
                   SuccessCallback (JArr [JObj repo_x]);
                   ErrorCallback (Thrown "render")],
     inr tt).
Proof.
  apply (throwing_success_callback_reaches_error_callback iso_parse LaterIsLess
           example_user (throwing (Thrown "render")) returns fresh example_response
           (JArr (map JObj example_records)) [JObj repo_x] (Thrown "render"));
    vm_compute; reflexivity.
Defined.

Lemma getRepos_delivers_cached_value_as_is_witness :
  getRepos iso_parse LaterIsLess example_user returns returns (cached "null")
  = (logged (cached "null") [SuccessCallback JNull], inr None).
Proof.
  refine (proj1 (getRepos_delivers_cached_value_as_is iso_parse LaterIsLess
                   example_user returns returns (cached "null") "null" JNull _ _));
    vm_compute; reflexivity.
Defined.

(** * More properties of the code *)

(** ** The filter on any response *)

Lemma keeps_cases repo :
  match keeps repo with
  | inl e => repo = JNull /\ e = TypeError
  | inr keep => repo <> JNull /\ (keep = true -> is_object repo = true)
  end.
Proof.
  destruct repo as [|b|n|negative|s|items|fields]; simpl;
    try (split; [discriminate|discriminate]).
  - by split.
  - unfold keeps; simpl.
    destruct (to_boolean (lookup_field "has_pages" fields)); by split.
Qed.

Lemma filter_array_cases items :
  match filter_array items with
  | inl e => e = TypeError /\ In JNull items
  | inr kept =>
      ~ In JNull items
      /\ Forall (fun r => is_object r = true /\ In r items) kept
  end.
Proof.
  induction items as [|repo items IH]; simpl.
  - split; [tauto | constructor].
  - pose proof (keeps_cases repo) as Hk.
    destruct (keeps repo) as [e|keep].
    + destruct Hk as [-> ->]. split; [reflexivity | by left].
    + destruct Hk as [Hne Hobj].
      destruct (filter_array items) as [e|kept].
      * destruct IH as [-> Hin]. split; [reflexivity | by right].
      * destruct IH as [Hnot Hall]. split; [intros [H|H]; congruence|].
        assert (Hall' : Forall (fun r => is_object r = true /\ In r (repo :: items)) kept).
        { eapply Forall_impl; [exact Hall|]. intros r [? ?]. split; [assumption | by right]. }
        destruct keep; [|assumption].
        constructor; [|assumption]. split; [by apply Hobj | by left].
Qed.

(** The filter callback keeps the wanted records, and nothing else. *)
Lemma keeps_wanted repo keep :
  keeps repo = inr keep -> keep = true <-> wanted_value repo.
Proof.
  destruct repo as [|b|n|negative|s|items|fields]; simpl; try discriminate;
    try (intros [= <-]; split; [discriminate | intros (f & Hf & _); discriminate]).
  rewrite keeps_record. intros [= <-]. rewrite passes_wanted. split.
  - intros Hw. by exists fields.
  - by intros (f & [= <-] & Hw).
Qed.

(** What the filter keeps and what it drops make up the array. *)
Lemma filter_array_split items : forall kept,
  filter_array items = inr kept ->
  exists dropped,
    Permutation items (kept ++ dropped)
    /\ Forall wanted_value kept
    /\ Forall (fun r => ~ wanted_value r) dropped.
Proof.
  induction items as [|repo items IH]; simpl; intros kept.
  - intros [= <-]. exists []. by repeat constructor.
  - destruct (keeps repo) as [e|keep] eqn:Ek; [discriminate|].
    destruct (filter_array items) as [e|kept'] eqn:Ef; [discriminate|].
    destruct (IH kept' eq_refl) as (dropped & Hperm & Hkept & Hdropped).
    pose proof (keeps_wanted repo keep Ek) as Hw.
    intros [= <-]. destruct keep.
    + exists dropped. split; [simpl; by constructor|].
      split; [constructor; [by apply Hw | assumption] | assumption].
    + exists (repo :: dropped). split; [|split; [assumption|]].
      * rewrite Hperm. apply Permutation_middle.
      * constructor; [|assumption]. intros H. apply Hw in H. discriminate.
Qed.

Section FilterEdges.
Variable Date_parse : string -> option Z.
Variable reading : sort_reading.

(** X1.  [filterWithPages] throws exactly when its argument is no array,
    or is an array with a [null] among its elements, or is an array with
    two wanted records or more among its elements, one of them with an
    [updated_at] that has no string form; what it throws is a
    [TypeError].  When it returns, the result is the wanted records among
    the elements of the argument, each as often as the argument has it, in
    some order: numbers, strings, booleans and arrays among the elements
    are dropped without a word. *)
Theorem filterWithPages_throws_on_null_or_no_array repos :
  match filterWithPages Date_parse reading repos with
  | inl e =>
      e = TypeError
      /\ ((forall items, repos <> JArr items)
          \/ (exists items, repos = JArr items /\ In JNull items)
          \/ (exists items kept dropped,
                 repos = JArr items
                 /\ Permutation items (kept ++ dropped)
                 /\ Forall wanted_value kept
                 /\ Forall (fun r => ~ wanted_value r) dropped
                 /\ (2 <= length kept)%nat
                 /\ Exists (fun r => dateless r = true) kept))
  | inr out =>
      exists items dropped,
        repos = JArr items /\ ~ In JNull items
        /\ Permutation items (out ++ dropped)
        /\ Forall wanted_value out
        /\ Forall (fun r => ~ wanted_value r) dropped
        /\ ((length out <= 1)%nat \/ Forall (fun r => dateless r = false) out)
  end.
Proof.
  destruct repos as [|b|n|negative|s|items|fields]; simpl;
    try (split; [reflexivity | left; discriminate]).
  pose proof (filter_array_cases items) as Hc.
  pose proof (filter_array_split items) as Hsplit.
  destruct (filter_array items) as [e|kept].
  - destruct Hc as [-> Hin]. split; [reflexivity|]. right. left. by exists items.
  - destruct Hc as [Hnot _].
    destruct (Hsplit kept eq_refl) as (dropped & Hperm & Hkept & Hdropped).
    pose proof (sort_throws reading (comparefn Date_parse) dateless TypeError
                  (comparefn_throws Date_parse reading)
                  (comparefn_answers Date_parse reading) kept) as Hs.
    pose proof (sort_perm reading (comparefn Date_parse) kept) as Hp.
    destruct (sort reading (comparefn Date_parse) kept) as [e|out].
    + destruct Hs as (-> & Hlen & Hbad). split; [reflexivity|].
      right. right. by exists items, kept, dropped.
    + specialize (Hp out eq_refl). exists items, dropped.
      split; [reflexivity|]. split; [assumption|].
      split; [by rewrite Hp|]. split; [by rewrite Hp|]. split; [assumption|].
      rewrite (Permutation_length Hp). destruct Hs as [Hs|Hs]; [by left | right].
      by rewrite Hp.
Qed.

(** X2.  On a list of records [filterWithPages] returns the wanted
    records, each as often as the input has it, in some order: it neither
    loses nor repeats a record, and the result is no longer than the
    input.  It throws, a [TypeError], only when two records or more are
    wanted and the [updated_at] of one of them has no string form. *)
Theorem filterWithPages_rearranges_the_kept (records : list (list (string * value))) :
  exists kept dropped,
    Permutation records (kept ++ dropped)
    /\ Forall wanted kept
    /\ Forall (fun fields => ~ wanted fields) dropped
    /\ match filterWithPages Date_parse reading (JArr (map JObj records)) with
       | inr out =>
           exists sorted,
             out = map JObj sorted /\ Permutation sorted kept
             /\ (length out <= length records)%nat
       | inl e =>
           e = TypeError
           /\ (2 <= length kept)%nat
           /\ Exists (fun fields => undatable fields = true) kept
       end.
Proof.
  exists (List.filter passes records),
         (List.filter (fun r => negb (passes r)) records).
  split; [apply filter_split|]. split; [|split].
  - apply Forall_forall. intros fields Hin. apply passes_wanted.
    apply list_elem_of_In, List.filter_In in Hin. tauto.
  - apply Forall_forall. intros fields Hin. rewrite <- passes_wanted.
    apply list_elem_of_In, List.filter_In in Hin as [_ Hin].
    by destruct (passes fields).
  - pose proof (filterWithPages_records Date_parse reading records) as H.
    destruct (filterWithPages _ _ _) as [e|out].
    + destruct H as (-> & Hlen & fields & Hin & Hpass & Hbad).
      split; [reflexivity|]. split; [assumption|].
      apply Exists_exists. exists fields. split; [|assumption].
      apply list_elem_of_In, List.filter_In. by split.
    + destruct H as (sorted & -> & Hperm & _). exists sorted.
      split; [reflexivity|]. split; [assumption|].
      rewrite length_map, (Permutation_length Hperm).
      apply List.filter_length_le.
Qed.

End FilterEdges.

(** ** What the callbacks get to see *)

Section Callbacks.
Variable Date_parse : string -> option Z.
Variable reading : sort_reading.
Variable username : string.
Variables (successCallback : callback value) (errorCallback : callback error).

Abbreviation api f := (f Date_parse reading username successCallback errorCallback).
Abbreviation path := (repos_path username).
Abbreviation throws_of r := (match r with None => inr tt | Some e => inl e end).

(** X5.  One call of [fetchUserRepos] and the answer to its request: the
    request is sent once, and then either nothing is called (a status
    other than 200), or the error callback alone, or the success callback
    once with an array, followed by the write to the cache when it returned
    and by the error callback, with what it threw, when it threw.  Neither
    callback is called twice, and the success callback never after the
    error callback. *)
Theorem fetchUserRepos_calls_back_at_most_once net w :
  exists tail,
    log (fst (api fetchUserRepos_then net w)) = log w ++ XhrSend path :: tail
    /\ (tail = []
        \/ (exists e, tail = [ErrorCallback e])
        \/ (exists filtered,
               tail = [SuccessCallback (JArr filtered);
                       StorageSet username (JSON_stringify (JArr filtered))]
               /\ successCallback (JArr filtered) = None)
        \/ (exists filtered e,
               tail = [SuccessCallback (JArr filtered); ErrorCallback e]
               /\ successCallback (JArr filtered) = Some e)).
Proof.
  rewrite fetchUserRepos_then_run. destruct net as [status response|]; simpl.
  - destruct (Z.eq_dec status 200) as [->|Hne].
    + destruct (JSON_parse response) as [data|] eqn:Hp.
      * destruct (filterWithPages Date_parse reading data) as [e|filtered] eqn:Hf.
        -- rewrite (fetch_loaded_filter_throws _ _ _ _ _ response data e) by assumption.
           eexists. split; [simpl; by rewrite <- app_assoc|]. right. left. eauto.
        -- rewrite (fetch_loaded_filtered _ _ _ _ _ response data filtered)
             by assumption.
           destruct (successCallback (JArr filtered)) as [e|] eqn:Hc.
           ++ eexists. split; [simpl; by rewrite <- app_assoc|].
              right. right. right. eauto.
           ++ eexists. split; [simpl; by rewrite <- app_assoc|].
              right. right. left. eauto.
      * rewrite fetch_loaded_not_json by assumption.
        eexists. split; [simpl; by rewrite <- app_assoc|]. right. left. eauto.
    + rewrite fetch_loaded_other_status by assumption.
      exists []. split; [reflexivity|]. by left.
  - rewrite call_error_run. eexists. split; [simpl; by rewrite <- app_assoc|].
    right. left. eauto.
Qed.

(** The ways [getRepos] runs. *)
Lemma getRepos_cases w :
  exists evs pending,
    api getRepos w = (logged w evs, inr pending)
    /\ ((pending = None
         /\ exists v, evs = [SuccessCallback v] /\ successCallback v = None)
        \/ (pending = Some (api listening)
            /\ (evs = [XhrSend path]
                \/ exists v e, evs = [SuccessCallback v; XhrSend path]
                               /\ successCallback v = Some e))).
Proof.
  destruct (JSON_parse (match sessionStorage w !! username with
                        | Some s => s | None => "undefined"%string end))
    as [v|] eqn:Hp.
  - destruct (sessionStorage w !! username) as [text|] eqn:Hs;
      [|vm_compute in Hp; discriminate].
    rewrite (getRepos_parsed _ _ _ _ _ text v w Hs Hp).
    destruct (successCallback v) as [e|] eqn:Hc.
    + eexists _, _. split; [reflexivity|]. right. split; [reflexivity|]. right. eauto.
    + eexists _, _. split; [reflexivity|]. left. split; [reflexivity|]. eauto.
  - rewrite getRepos_no_parse by assumption.
    eexists _, _. split; [reflexivity|]. right. split; [reflexivity|]. by left.
Qed.

(** X6.  [getRepos] returns whatever the cache holds and whatever the
    success callback does: it calls the success callback at most once and
    the error callback never, sends at most one request, and leaves a
    request waiting exactly when it delivered nothing or the success
    callback threw on what it delivered. *)
Theorem getRepos_never_throws w :
  exists evs pending,
    api getRepos w = (logged w evs, inr pending)
    /\ ((pending = None
         /\ exists v, evs = [SuccessCallback v] /\ successCallback v = None)
        \/ (pending = Some (api listening)
            /\ (evs = [XhrSend path]
                \/ exists v e, evs = [SuccessCallback v; XhrSend path]
                               /\ successCallback v = Some e))).
Proof. apply getRepos_cases. Qed.

(** The storage after a run: as it was, or with one text for the user. *)
Lemma getRepos_then_storage net w :
  sessionStorage (fst (api getRepos_then net w)) = sessionStorage w
  \/ exists json,
       sessionStorage (fst (api getRepos_then net w))
       = <[username := json]> (sessionStorage w).
Proof.
  destruct (getRepos_cases w) as (evs & pending & Hrun & Hcase).
  unfold getRepos_then, bind. rewrite Hrun.
  destruct Hcase as [[-> _]|[-> _]]; [by left|].
  destruct (dispatch_writes Date_parse reading username successCallback
              errorCallback net (logged w evs)) as (evs' & _ & Hw).
  destruct Hw as [[Hst _]|(response & data & filtered & _ & _ & _ & _ & Hst & _)].
  - left. by rewrite Hst.
  - right. eexists. by rewrite Hst.
Qed.

(** X7.  A run of [getRepos] and of the answer to its request leaves
    what is cached under every other key as it was. *)
Theorem getRepos_leaves_other_users_alone net w key :
  key <> username ->
  sessionStorage (fst (api getRepos_then net w)) !! key = sessionStorage w !! key.
Proof.
  intros Hne. destruct (getRepos_then_storage net w) as [->|(json & ->)];
    [reflexivity|]. by apply lookup_insert_ne.
Qed.

(** X8.  A response with status 200 that is no JSON, or is JSON that is
    no array or an array with a [null] in it, reaches the error callback
    alone, with a [SyntaxError] and a [TypeError]: nothing is delivered
    and nothing is written to the cache. *)
Theorem fetch_unusable_response_reaches_error_callback w response :
  (JSON_parse response = None ->
   api fetchUserRepos_then (XhrLoad 200 response) w
   = (logged w [XhrSend path; ErrorCallback SyntaxError],
      throws_of (errorCallback SyntaxError)))
  /\ (forall data,
        JSON_parse response = Some data ->
        (forall items, data <> JArr items)
        \/ (exists items, data = JArr items /\ In JNull items) ->
        api fetchUserRepos_then (XhrLoad 200 response) w
        = (logged w [XhrSend path; ErrorCallback TypeError],
           throws_of (errorCallback TypeError))).
Proof.
  split.
  - intros Hp. rewrite fetchUserRepos_then_run. simpl.
    rewrite fetch_loaded_not_json by assumption. by rewrite logged_logged.
  - intros data Hp Hbad. rewrite fetchUserRepos_then_run. simpl.
    assert (Hf : filterWithPages Date_parse reading data = inl TypeError).
    { destruct data as [|b|n|negative|s|items|fields]; try reflexivity.
      - destruct Hbad as [Hno|(items' & [= <-] & Hin)]; [by destruct (Hno items)|].
        unfold filterWithPages. pose proof (filter_array_cases items) as Hc.
        destruct (filter_array items) as [e|kept]; [by destruct Hc as [-> _]|].
        by destruct Hc as [Hnot _]. }
    rewrite (fetch_loaded_filter_throws _ _ _ _ _ response data TypeError)
      by assumption.
    by rewrite logged_logged.
Qed.

End Callbacks.

(** ** Text that holds no variable *)

Lemma templateRegExp_needs_braces c s :
  (forall post, c :: s <> chars "{{" ++ post) -> templateRegExp (c :: s) = None.
Proof.
  intros Hno. unfold templateRegExp. destruct s as [|c2 r]; [reflexivity|].
  destruct (Ascii.eqb_spec c "{") as [->|_]; [|reflexivity].
  destruct (Ascii.eqb_spec c2 "{") as [->|_]; [|reflexivity].
  by destruct (Hno r).
Qed.

Lemma replace_without_braces fn s :
  (forall pre post, s <> pre ++ chars "{{" ++ post) -> replace fn s = inr s.
Proof.
  induction s as [|c s IH]; intros Hno; [reflexivity|].
  rewrite replace_copy.
  - rewrite IH; [reflexivity|]. intros pre post ->. by apply (Hno (c :: pre) post).
  - apply templateRegExp_needs_braces. intros post. apply (Hno [] post).
Qed.

Lemma opens_variable_spec s :
  opens_variable s = false -> forall pre post, s <> pre ++ chars "{{" ++ post.
Proof.
  induction s as [|c s IH]; intros Hno pre post.
  - by destruct pre.
  - simpl in Hno. destruct s as [|c2 r].
    + destruct pre as [|? [|? ?]]; discriminate.
    + apply orb_false_iff in Hno as [Hhere Hrest].
      destruct pre as [|p pre].
      * intros [= -> ->]. discriminate.
      * intros [= _ H]. by apply (IH Hrest pre post).
Qed.

(** X9.  A template in which two opening braces never stand side by side
    is rendered as it is, whatever the record: single braces, as in a style
    rule, are copied. *)
Theorem render_copies_text_without_variables template repo :
  opens_variable (chars template) = false ->
  render template repo = inr template.
Proof.
  intros Hno. unfold render.
  rewrite replace_without_braces by (by apply opens_variable_spec).
  by rewrite str_chars.
Qed.

(** X16.  The white space between the braces and the key is of no
    account: a variable written with it is replaced by what the variable
    written without it is replaced by. *)
Theorem render_ignores_space_in_braces fn ws1 key ws2 rest :
  Forall (fun c => is_space c = true) ws1 ->
  Forall (fun c => is_space c = true) ws2 ->
  Forall (fun c => is_word c = true) key -> key <> [] ->
  replace fn (chars "{{" ++ ws1 ++ key ++ ws2 ++ chars "}}" ++ rest)
  = replace fn (chars "{{" ++ key ++ chars "}}" ++ rest).
Proof.
  intros H1 H2 Hk Hne.
  rewrite (replace_match fn _ key rest) by (by apply templateRegExp_token).
  symmetry. apply replace_match.
  by apply (templateRegExp_token [] key [] rest).
Qed.

(** ** The component *)

(** Replacers that agree on every key give the same replacement. *)
Lemma replace_ext fn gn s :
  (forall key, fn key = gn key) -> replace fn s = replace gn s.
Proof.
  intros Hext. unfold replace. generalize (length s). intros fuel.
  revert s. induction fuel as [|fuel IH]; intros s; [reflexivity|].
  cbn [replace_go]. destruct (templateRegExp s) as [[key rest]|].
  - by rewrite Hext, IH.
  - destruct s as [|c r]; [reflexivity|]. by rewrite IH.
Qed.

(** On an object, [_render] is what it is on its fields. *)
Lemma _render_value_record template fields :
  _render_value template (JObj fields) = _render template fields.
Proof.
  unfold _render_value, _render, render. simpl member. cbv iota.
  destruct (concat_value (lookup_field "name" fields)) as [e|name]; [reflexivity|].
  rewrite (replace_ext (replacer_of (JObj fields)) (replacer fields)).
  - by destruct (replace (replacer fields) (chars template)).
  - intros key. unfold replacer_of, replacer, property.
    destruct (lookup_field (str key) fields) as [v|]; [reflexivity|].
    by destruct (inherited (str key)).
Qed.

(** Records that render are rendered one by one, in order; the loop goes
    on with what follows them. *)
Lemma forEach_render_records template records anchors rest :
  Forall2 (fun fields a => _render template fields = inr a) records anchors ->
  forEach_render template (map JObj records ++ rest)
  = (anchors ++ fst (forEach_render template rest),
     snd (forEach_render template rest)).
Proof.
  induction 1 as [|fields a records anchors Ha _ IH]; cbn [map app].
  - by destruct (forEach_render template rest).
  - cbn [forEach_render]. rewrite _render_value_record, Ha, IH. reflexivity.
Qed.

Lemma forEach_render_all template records anchors :
  Forall2 (fun fields a => _render template fields = inr a) records anchors ->
  forEach_render template (map JObj records) = (anchors, None).
Proof.
  intros H. rewrite <- (app_nil_r (map JObj records)).
  rewrite (forEach_render_records template records anchors [] H).
  simpl. by rewrite app_nil_r.
Qed.

Lemma forEach_render_until template records anchors bad rest e :
  Forall2 (fun fields a => _render template fields = inr a) records anchors ->
  _render_value template bad = inl e ->
  forEach_render template (map JObj records ++ bad :: rest) = (anchors, Some e).
Proof.
  intros H Hbad.
  rewrite (forEach_render_records template records anchors (bad :: rest) H).
  cbn [forEach_render]. rewrite Hbad. simpl. by rewrite app_nil_r.
Qed.

(** A list of objects is a list of records. *)
Lemma objects_are_records (l : list value) :
  Forall (fun r => is_object r = true) l -> exists records, l = map JObj records.
Proof.
  induction 1 as [|r l Hr _ (records & ->)]; [by exists []|].
  destruct r as [| | | | | |fields]; try discriminate. by exists (fields :: records).
Qed.

Section ComponentRuns.
Variable Date_parse : string -> option Z.
Variable reading : sort_reading.

Abbreviation component doc attribute :=
  (GitHubReposComponent Date_parse reading doc attribute).
Abbreviation fetch_for template attribute :=
  (fetchUserRepos_then Date_parse reading (username_of attribute)
     (renders template) rethrows).
Abbreviation waiting template attribute :=
  (listening Date_parse reading (username_of attribute) (renders template) rethrows).
Abbreviation rendered template :=
  (Forall2 (fun fields a => _render template fields = inr a)).
Abbreviation delivered :=
  (map (fun records : list (list (string * value)) =>
          SuccessCallback (JArr (map JObj records)))).

(** What [filterWithPages] returns is a list of records. *)
Lemma filtered_are_records data filtered :
  filterWithPages Date_parse reading data = inr filtered ->
  exists records, filtered = map JObj records.
Proof.
  destruct data as [| | | | |items|]; try discriminate. intros Hf.
  pose proof (filterWithPages_subset Date_parse reading items filtered Hf) as Hsub.
  unfold filterWithPages in Hf.
  pose proof (filter_array_cases items) as Hc.
  destruct (filter_array items) as [e|kept]; [discriminate|].
  apply objects_are_records. destruct Hc as [_ Hall].
  apply Forall_forall. intros r Hr. rewrite Forall_forall in Hall.
  apply list_elem_of_In in Hr.
  apply (Permutation_in _ (sort_perm reading (comparefn Date_parse) kept _ Hf)) in Hr.
  by apply list_elem_of_In, Hall in Hr as [? _].
Qed.

(** X10.  A component whose user has a list of records cached, each of
    which renders, appends the anchor of each record, in the order of the
    list, and sends no request. *)
Theorem component_renders_the_cached_records
    doc template attribute w text records anchors :
  template_markup doc = Some template ->
  sessionStorage w !! username_of attribute = Some text ->
  JSON_parse text = Some (JArr (map JObj records)) ->
  rendered template records anchors ->
  component doc attribute w
  = (logged w [SuccessCallback (JArr (map JObj records))], inr None)
  /\ appended template [SuccessCallback (JArr (map JObj records))] = anchors.
Proof.
  intros Ht Hs Hp Hr. unfold GitHubReposComponent, _getTemplate. rewrite Ht. split.
  - rewrite (getRepos_parsed _ _ _ _ _ text _ w Hs Hp).
    unfold renders. simpl. by rewrite (forEach_render_all template records anchors).
  - simpl. by rewrite (forEach_render_all template records anchors), app_nil_r.
Qed.

(** X11.  A component whose user has cached a text that parses to
    something else than an array appends nothing and goes to the network:
    the [TypeError] of its success callback is caught by [getRepos], which
    sends the request. *)
Theorem component_refetches_when_cache_holds_no_list doc template attribute w text v :
  template_markup doc = Some template ->
  sessionStorage w !! username_of attribute = Some text ->
  JSON_parse text = Some v ->
  (forall items, v <> JArr items) ->
  component doc attribute w
  = (logged w [SuccessCallback v; XhrSend (repos_path (username_of attribute))],
     inr (Some (waiting template attribute)))
  /\ appended template
       [SuccessCallback v; XhrSend (repos_path (username_of attribute))] = [].
Proof.
  intros Ht Hs Hp Hno. unfold GitHubReposComponent, _getTemplate. rewrite Ht.
  assert (Hr : render_repos template v = ([], Some TypeError)).
  { destruct v as [| | | | |items|]; try reflexivity. by destruct (Hno items). }
  split.
  - rewrite (getRepos_parsed _ _ _ _ _ text _ w Hs Hp). unfold renders.
    by rewrite Hr.
  - simpl. by rewrite Hr.
Qed.

(** X12.  With the callbacks of a component, a response with status 200
    that is filtered gives a list of records.  When each of them renders,
    the success callback appends their anchors and returns, the list is
    written to the cache, and the error callback is not called.  When one
    of them does not render, the anchors of the records before it stay
    appended, its exception reaches the error callback, which throws it
    on to nobody, and nothing is written to the cache. *)
Theorem component_renders_and_caches_a_fetch template attribute w response data filtered :
  JSON_parse response = Some data ->
  filterWithPages Date_parse reading data = inr filtered ->
  exists records,
    filtered = map JObj records
    /\ (forall anchors,
          rendered template records anchors ->
          fetch_for template attribute (XhrLoad 200 response) w
          = ({| sessionStorage :=
                  <[username_of attribute := JSON_stringify (JArr filtered)]>
                    (sessionStorage w);
                log := log w ++ [XhrSend (repos_path (username_of attribute));
                                 SuccessCallback (JArr filtered);
                                 StorageSet (username_of attribute)
                                   (JSON_stringify (JArr filtered))] |},
             inr tt)
          /\ appended template
               [XhrSend (repos_path (username_of attribute));
                SuccessCallback (JArr filtered);
                StorageSet (username_of attribute) (JSON_stringify (JArr filtered))]
             = anchors)
    /\ (forall before unrendered rest anchors e,
          records = before ++ unrendered :: rest ->
          rendered template before anchors ->
          _render template unrendered = inl e ->
          fetch_for template attribute (XhrLoad 200 response) w
          = (logged w [XhrSend (repos_path (username_of attribute));
                       SuccessCallback (JArr filtered);
                       ErrorCallback e],
             inl (Thrown (error_text e)))
          /\ appended template
               [XhrSend (repos_path (username_of attribute));
                SuccessCallback (JArr filtered);
                ErrorCallback e]
             = anchors).
Proof.
  intros Hp Hf. destruct (filtered_are_records data filtered Hf) as (records & ->).
  exists records. split; [reflexivity|]. split.
  - intros anchors Hr. split.
    + apply (fetch_succeeded _ _ _ _ _ w response data); [assumption..|].
      unfold renders. simpl. by rewrite (forEach_render_all template records anchors).
    + simpl. by rewrite (forEach_render_all template records anchors), app_nil_r.
  - intros before unrendered rest anchors e -> Hr He.
    assert (Hthrown :
      forEach_render template (map JObj (before ++ unrendered :: rest))
      = (anchors, Some e)).
    { rewrite map_app. cbn [map].
      apply forEach_render_until; [assumption|].
      by rewrite _render_value_record. }
    split.
    + rewrite fetchUserRepos_then_run. simpl.
      rewrite (fetch_loaded_filtered _ _ _ _ _ response data _ _ Hp Hf).
      unfold renders at 1. simpl render_repos. rewrite Hthrown. simpl snd.
      cbv iota. by rewrite logged_logged.
    + simpl. by rewrite Hthrown, app_nil_r.
Qed.

(** X13.  With the callbacks of a component, every failure that reaches
    the error callback ends as an exception nobody catches: a transport
    failure, a response with status 200 that is no JSON, and one that
    [filterWithPages] throws on.  Nothing is appended and nothing is
    written to the cache. *)
Theorem component_failures_are_uncaught template attribute w :
  fetch_for template attribute XhrError w
  = (logged w [XhrSend (repos_path (username_of attribute));
               ErrorCallback ProgressEvent],
     inl (Thrown (error_text ProgressEvent)))
  /\ (forall response,
        JSON_parse response = None ->
        fetch_for template attribute (XhrLoad 200 response) w
        = (logged w [XhrSend (repos_path (username_of attribute));
                     ErrorCallback SyntaxError],
           inl (Thrown (error_text SyntaxError))))
  /\ (forall response data e,
        JSON_parse response = Some data ->
        filterWithPages Date_parse reading data = inl e ->
        fetch_for template attribute (XhrLoad 200 response) w
        = (logged w [XhrSend (repos_path (username_of attribute)); ErrorCallback e],
           inl (Thrown (error_text e))))
  /\ (forall e, appended template
                  [XhrSend (repos_path (username_of attribute)); ErrorCallback e] = []).
Proof.
  split; [|split; [|split]].
  - apply fetch_failed.
  - intros response Hp. rewrite fetchUserRepos_then_run. simpl.
    rewrite fetch_loaded_not_json by assumption. by rewrite logged_logged.
  - intros response data e Hp Hf. rewrite fetchUserRepos_then_run. simpl.
    rewrite (fetch_loaded_filter_throws _ _ _ _ _ response data e) by assumption.
    by rewrite logged_logged.
  - reflexivity.
Qed.

(** X17.  What a component appended before its success callback threw
    stays appended: on a cached array that holds records that render and
    then a [null], the anchors of the records before the [null] are
    appended, the [TypeError] of the [null] is caught by [getRepos], and
    the request is sent. *)
Theorem component_keeps_anchors_of_a_broken_cache
    doc template attribute w text records anchors rest :
  template_markup doc = Some template ->
  sessionStorage w !! username_of attribute = Some text ->
  JSON_parse text = Some (JArr (map JObj records ++ JNull :: rest)) ->
  rendered template records anchors ->
  component doc attribute w
  = (logged w [SuccessCallback (JArr (map JObj records ++ JNull :: rest));
               XhrSend (repos_path (username_of attribute))],
     inr (Some (waiting template attribute)))
  /\ appended template
       [SuccessCallback (JArr (map JObj records ++ JNull :: rest));
        XhrSend (repos_path (username_of attribute))]
     = anchors.
Proof.
  intros Ht Hs Hp Hr. unfold GitHubReposComponent, _getTemplate. rewrite Ht.
  assert (Hthrown : forEach_render template (map JObj records ++ JNull :: rest)
                    = (anchors, Some TypeError))
    by (by apply forEach_render_until).
  split.
  - rewrite (getRepos_parsed _ _ _ _ _ text _ w Hs Hp). unfold renders. simpl.
    by rewrite Hthrown.
  - simpl. by rewrite Hthrown, app_nil_r.
Qed.

(** [register] when nothing is cached for any of the users. *)
Lemma construct_each_uncached doc template elements : forall w,
  template_markup doc = Some template ->
  (forall attribute, In attribute elements ->
                     sessionStorage w !! username_of attribute = None) ->
  construct_each Date_parse reading doc elements w
  = (logged w (map (fun attribute => XhrSend (repos_path (username_of attribute)))
                 elements),
     inr (map (fun attribute => Some (waiting template attribute)) elements)).
Proof.
  intros w Ht. revert w.
  induction elements as [|attribute rest IH]; intros w Hnone.
  - simpl. unfold ret. by rewrite logged_nil.
  - cbn [construct_each]. unfold bind at 1.
    unfold GitHubReposComponent, _getTemplate. rewrite Ht.
    rewrite getRepos_no_parse
      by (rewrite (Hnone attribute (or_introl eq_refl)); reflexivity).
    unfold bind at 1. rewrite IH by (intros a Ha; apply Hnone; by right).
    unfold ret. by rewrite logged_logged.
Qed.

(** X14.  [register] with a template and nothing cached sends one request
    for each element it finds, in document order, two for two elements of
    the same user: requests for one user are not shared. *)
Theorem register_sends_a_request_for_each_element doc template w :
  template_markup doc = Some template ->
  (forall attribute, In attribute (containers doc) ->
                     sessionStorage w !! username_of attribute = None) ->
  register Date_parse reading doc w
  = (logged w (map (fun attribute => XhrSend (repos_path (username_of attribute)))
                 (containers doc)),
     inr (map (fun attribute => Some (waiting template attribute)) (containers doc))).
Proof. intros Ht Hnone. by apply construct_each_uncached. Qed.

(** [register] when a list of records that render is cached for each of
    the users. *)
Lemma construct_each_cached doc template elements : forall w lists anchors,
  template_markup doc = Some template ->
  Forall2 (fun attribute records =>
             exists text,
               sessionStorage w !! username_of attribute = Some text
               /\ JSON_parse text = Some (JArr (map JObj records)))
    elements lists ->
  Forall2 (rendered template) lists anchors ->
  construct_each Date_parse reading doc elements w
  = (logged w (delivered lists), inr (map (fun _ => None) elements))
  /\ appended template (delivered lists) = concat anchors.
Proof.
  intros w lists anchors Ht. revert w lists anchors.
  induction elements as [|attribute rest IH]; intros w lists anchors Hcached Hr.
  - apply Forall2_nil_inv_l in Hcached as ->.
    apply Forall2_nil_inv_l in Hr as ->.
    simpl. unfold ret. by rewrite logged_nil.
  - apply Forall2_cons_inv_l in Hcached
      as (records & lists' & (text & Hs & Hp) & Hcached & ->).
    apply Forall2_cons_inv_l in Hr as (first & anchors' & Hfirst & Hr & ->).
    destruct (IH (logged w [SuccessCallback (JArr (map JObj records))])
                lists' anchors' Hcached Hr) as [Hrun Happ].
    split.
    + cbn [construct_each]. unfold bind at 1.
      unfold GitHubReposComponent, _getTemplate. rewrite Ht.
      rewrite (getRepos_parsed _ _ _ _ _ text _ w Hs Hp).
      unfold renders at 1. simpl render_repos.
      rewrite (forEach_render_all template records first Hfirst).
      simpl snd. cbv iota. unfold bind at 1. rewrite Hrun.
      unfold ret. by rewrite logged_logged.
    + cbn [map concat appended flat_map] in *. simpl render_repos.
      rewrite (forEach_render_all template records first Hfirst). simpl fst.
      f_equal. exact Happ.
Qed.

(** X18.  [register] with a template, when a list of records that render
    is cached for the user of every element it finds: every component
    renders from the cache.  The events are the calls of the success
    callbacks, one for each element in document order, each with the list
    cached for the user of the element; the anchors of these lists are
    appended; and no request is sent or left waiting. *)
Theorem register_renders_from_the_cache doc template w lists anchors :
  template_markup doc = Some template ->
  Forall2 (fun attribute records =>
             exists text,
               sessionStorage w !! username_of attribute = Some text
               /\ JSON_parse text = Some (JArr (map JObj records)))
    (containers doc) lists ->
  Forall2 (rendered template) lists anchors ->
  register Date_parse reading doc w
  = (logged w (delivered lists), inr (map (fun _ => None) (containers doc)))
  /\ appended template (delivered lists) = concat anchors.
Proof. intros Ht Hcached Hr. by apply (construct_each_cached doc template). Qed.

(** X15.  [register] without a template: with no element to extend it
    does nothing, and with one it throws the [TypeError] of [_getTemplate]
    in the first constructor, before the storage is read or a request is
    sent. *)
Theorem register_without_template doc w :
  template_markup doc = None ->
  register Date_parse reading doc w
  = (w, match containers doc with [] => inr [] | _ :: _ => inl TypeError end).
Proof.
  intros Ht. unfold register. destruct (containers doc) as [|attribute rest].
  - reflexivity.
  - cbn [construct_each]. unfold bind, GitHubReposComponent, _getTemplate.
    by rewrite Ht.
Qed.

End ComponentRuns.

(** ** More of the properties at work *)

Lemma getRepos_leaves_other_users_alone_witness :
  sessionStorage
    (fst (getRepos_then iso_parse LaterIsLess example_user returns returns
            (XhrLoad 200 example_response) (cached "[{"))) !! "octocat"%string
  = sessionStorage (cached "[{") !! "octocat"%string.
Proof.
  apply (getRepos_leaves_other_users_alone iso_parse LaterIsLess example_user
           returns returns (XhrLoad 200 example_response) (cached "[{") "octocat").
  discriminate.
Defined.

Lemma render_copies_text_without_variables_witness :
  render "a { color: red } {x}" repo_x = inr "a { color: red } {x}"%string.
Proof.
  apply (render_copies_text_without_variables "a { color: red } {x}" repo_x).
  reflexivity.
Defined.

Lemma render_ignores_space_in_braces_witness :
  replace (replacer repo_x) (chars "{{" ++ chars "  " ++ chars "name" ++ chars " "
                               ++ chars "}}" ++ chars "!")
  = replace (replacer repo_x) (chars "{{" ++ chars "name" ++ chars "}}" ++ chars "!").
Proof.
  apply (render_ignores_space_in_braces (replacer repo_x) (chars "  ")
           (chars "name") (chars " ") (chars "!")).
  - repeat constructor.
  - repeat constructor.
  - repeat constructor.
  - discriminate.
Defined.

Lemma component_renders_the_cached_records_witness :
  GitHubReposComponent iso_parse LaterIsLess example_document (Some example_user)
    (cached (JSON_stringify (JArr (map JObj [repo_x; repo_a]))))
  = (logged (cached (JSON_stringify (JArr (map JObj [repo_x; repo_a]))))
       [SuccessCallback (JArr (map JObj [repo_x; repo_a]))], inr None)
  /\ appended example_template [SuccessCallback (JArr (map JObj [repo_x; repo_a]))]
     = [example_anchor "x"; example_anchor "a"].
Proof.
  apply (component_renders_the_cached_records iso_parse LaterIsLess example_document
           example_template (Some example_user)
           (cached (JSON_stringify (JArr (map JObj [repo_x; repo_a]))))
           (JSON_stringify (JArr (map JObj [repo_x; repo_a]))) [repo_x; repo_a]
           [example_anchor "x"; example_anchor "a"]).
  - reflexivity.
  - vm_compute. reflexivity.
  - vm_compute. reflexivity.
  - constructor; [vm_compute; reflexivity|].
    constructor; [vm_compute; reflexivity|]. constructor.
Defined.

Lemma component_refetches_when_cache_holds_no_list_witness :
  GitHubReposComponent iso_parse LaterIsLess example_document (Some example_user)
    (cached "null")
  = (logged (cached "null")
       [SuccessCallback JNull; XhrSend (repos_path example_user)],
     inr (Some (listening iso_parse LaterIsLess example_user
                  (renders example_template) rethrows)))
  /\ appended example_template
       [SuccessCallback JNull; XhrSend (repos_path example_user)] = [].
Proof.
  apply (component_refetches_when_cache_holds_no_list iso_parse LaterIsLess
           example_document example_template (Some example_user) (cached "null")
           "null" JNull); try (vm_compute; reflexivity).
  discriminate.
Defined.

(** A response with a repository whose name has no string form: the list
    is filtered and delivered, the rendering throws, the error callback
    throws on, and nothing is cached. *)
Example component_fetch_of_a_name_without_string_form :
  JSON_parse (js "[{'name':{'toString':1},'has_pages':true,'updated_at':'2018-01-01'}]")
  = Some (JArr [JObj repo_odd])
  /\ fetchUserRepos_then iso_parse LaterIsLess example_user
       (renders example_template) rethrows
       (XhrLoad 200
          (js "[{'name':{'toString':1},'has_pages':true,'updated_at':'2018-01-01'}]"))
       fresh
     = (logged fresh [XhrSend (repos_path example_user);
                      SuccessCallback (JArr [JObj repo_odd]);
                      ErrorCallback TypeError],
        inl (Thrown "TypeError")).
Proof. split; vm_compute; reflexivity. Qed.

Lemma component_renders_and_caches_a_fetch_witness :
  exists records,
    [JObj repo_x] = map JObj records
    /\ (forall anchors,
          Forall2 (fun fields a => _render example_template fields = inr a)
            records anchors ->
          fetchUserRepos_then iso_parse LaterIsLess example_user
            (renders example_template) rethrows (XhrLoad 200 example_response) fresh
          = ({| sessionStorage :=
                  <[example_user := JSON_stringify (JArr [JObj repo_x])]> ∅;
                log := [XhrSend (repos_path example_user);
                        SuccessCallback (JArr [JObj repo_x]);
                        StorageSet example_user
                          (JSON_stringify (JArr [JObj repo_x]))] |},
             inr tt)
          /\ appended example_template
               [XhrSend (repos_path example_user);
                SuccessCallback (JArr [JObj repo_x]);
                StorageSet example_user (JSON_stringify (JArr [JObj repo_x]))]
             = anchors)
    /\ (forall before unrendered rest anchors e,
          records = before ++ unrendered :: rest ->
          Forall2 (fun fields a => _render example_template fields = inr a)
            before anchors ->
          _render example_template unrendered = inl e ->
          fetchUserRepos_then iso_parse LaterIsLess example_user
            (renders example_template) rethrows (XhrLoad 200 example_response) fresh
          = (logged fresh [XhrSend (repos_path example_user);
                           SuccessCallback (JArr [JObj repo_x]);
                           ErrorCallback e],
             inl (Thrown (error_text e)))
          /\ appended example_template
               [XhrSend (repos_path example_user);
                SuccessCallback (JArr [JObj repo_x]);
                ErrorCallback e]
             = anchors).
Proof.
  apply (component_renders_and_caches_a_fetch iso_parse LaterIsLess example_template
           (Some example_user) fresh example_response
           (JArr (map JObj example_records)) [JObj repo_x]);
    vm_compute; reflexivity.
Defined.

Lemma component_keeps_anchors_of_a_broken_cache_witness :
  appended example_template
    [SuccessCallback (JArr (map JObj [repo_x] ++ JNull :: [JObj repo_a]));
     XhrSend (repos_path example_user)]
  = [example_anchor "x"].
Proof.
  refine (proj2 (component_keeps_anchors_of_a_broken_cache iso_parse LaterIsLess
                   example_document example_template (Some example_user)
                   (cached (JSON_stringify (JArr [JObj repo_x; JNull; JObj repo_a])))
                   (JSON_stringify (JArr [JObj repo_x; JNull; JObj repo_a]))
                   [repo_x] [example_anchor "x"] [JObj repo_a] _ _ _ _)).
  - reflexivity.
  - vm_compute. reflexivity.
  - vm_compute. reflexivity.
  - constructor; [vm_compute; reflexivity|]. constructor.
Defined.

Lemma register_sends_a_request_for_each_element_witness :
  register iso_parse LaterIsLess example_document fresh
  = (logged fresh [XhrSend (repos_path example_user);
                   XhrSend (repos_path "null");
                   XhrSend (repos_path example_user)],
     inr (map (fun attribute =>
                 Some (listening iso_parse LaterIsLess (username_of attribute)
                         (renders example_template) rethrows))
            (containers example_document))).
Proof.
  apply (register_sends_a_request_for_each_element iso_parse LaterIsLess
           example_document example_template fresh); [reflexivity|].
  intros attribute _. reflexivity.
Defined.

Lemma register_without_template_witness :
  register iso_parse LaterIsLess
    {| template_markup := None; containers := [Some example_user] |} fresh
  = (fresh, inl TypeError).
Proof.
  apply (register_without_template iso_parse LaterIsLess
           {| template_markup := None; containers := [Some example_user] |} fresh).
  reflexivity.
Defined.

Lemma register_renders_from_the_cache_witness :
  register iso_parse LaterIsLess
    {| template_markup := Some example_template;
       containers := [Some example_user; Some example_user] |}
    (cached (JSON_stringify (JArr (map JObj [repo_x; repo_a]))))
  = (logged (cached (JSON_stringify (JArr (map JObj [repo_x; repo_a]))))
       [SuccessCallback (JArr (map JObj [repo_x; repo_a]));
        SuccessCallback (JArr (map JObj [repo_x; repo_a]))],
     inr [None; None])
  /\ appended example_template
       [SuccessCallback (JArr (map JObj [repo_x; repo_a]));
        SuccessCallback (JArr (map JObj [repo_x; repo_a]))]
     = [example_anchor "x"; example_anchor "a";
        example_anchor "x"; example_anchor "a"].
Proof.
  apply (register_renders_from_the_cache iso_parse LaterIsLess
           {| template_markup := Some example_template;
              containers := [Some example_user; Some example_user] |}
           example_template
           (cached (JSON_stringify (JArr (map JObj [repo_x; repo_a]))))
           [[repo_x; repo_a]; [repo_x; repo_a]]
           [[example_anchor "x"; example_anchor "a"];
            [example_anchor "x"; example_anchor "a"]]);
    [reflexivity | |].
  - assert (Hcached :
      exists text,
        sessionStorage (cached (JSON_stringify (JArr (map JObj [repo_x; repo_a]))))
          !! username_of (Some example_user) = Some text
        /\ JSON_parse text = Some (JArr (map JObj [repo_x; repo_a]))).
    { exists (JSON_stringify (JArr (map JObj [repo_x; repo_a]))).
      split; vm_compute; reflexivity. }
    constructor; [exact Hcached|]. constructor; [exact Hcached|]. constructor.
  - assert (Hrendered :
      Forall2 (fun fields a => _render example_template fields = inr a)
        [repo_x; repo_a] [example_anchor "x"; example_anchor "a"]).
    { constructor; [vm_compute; reflexivity|].
      constructor; [vm_compute; reflexivity|]. constructor. }
    constructor; [exact Hrendered|]. constructor; [exact Hrendered|]. constructor.
Defined.
